(** * eslint-friendly-formatter: a shallow embedding of [index.js]

    The formatter turns the per-file results of a lint run into one report
    string.  This development embeds [index.js] function by function and
    checks the properties its specification states about it.

    Conventions of the embedding:
    - JavaScript strings are [string]s; their order ([<], [>]) is the
      order of [String.compare], and their length is [String.length] (both
      agree with JavaScript on ASCII text);
    - JavaScript integers are [Z]; counters that only ever grow from zero
      are [nat];
    - an optional property is an [option]: [None] is a property that is
      absent (it reads as [undefined]);
    - the closure variables that the callbacks of [module.exports] update
      ([errors], [warnings], [summaryColor], the two tally objects and the
      accumulated rows) are threaded explicitly as a [RowState];
    - the packages [chalk], [text-table], [path] and the platform's
      [String.prototype.localeCompare] are collaborators: they are
      variables of the sections below, and every theorem holds for any
      choice of them. *)

From Stdlib Require Import String Ascii ZArith List Bool Lia.
From Stdlib Require Import DecimalString Permutation Sorted OrderedTypeEx.
Import ListNotations.

Local Open Scope string_scope.
Local Open Scope Z_scope.

(* ------------------------------------------------------------------ *)
(** * JavaScript primitives used by the formatter *)
(* ------------------------------------------------------------------ *)

Module Js.

Definition LF : string := String (ascii_of_nat 10) EmptyString.
Definition TAB : ascii := ascii_of_nat 9.

(** [String(n)] and string concatenation with a number, for integers. *)
Definition string_of_nat (n : nat) : string :=
  NilZero.string_of_uint (Nat.to_uint n).

Definition string_of_Z (z : Z) : string :=
  NilZero.string_of_int (Z.to_int z).

(** [a > b] and [a < b] on numbers that may be [undefined]: a comparison
    with [undefined] converts it to NaN and is false. *)
Definition num_gt (a b : option Z) : bool :=
  match a, b with
  | Some x, Some y => y <? x
  | _, _ => false
  end.

Definition num_lt (a b : option Z) : bool := num_gt b a.

(** [a > b] and [a < b] on strings that may be [undefined]: two strings
    compare lexicographically, anything else goes through NaN. *)
Definition str_gt (a b : option string) : bool :=
  match a, b with
  | Some x, Some y => String.ltb y x
  | _, _ => false
  end.

Definition str_lt (a b : option string) : bool := str_gt b a.

(** Truthiness of a value that is a string or [undefined]. *)
Definition truthy_str (v : option string) : bool :=
  match v with
  | Some s => negb (String.eqb s "")
  | None => false
  end.

(** [a !== b] where [a] may be [undefined] and [b] is a string. *)
Definition strict_neq (a : option string) (b : string) : bool :=
  match a with
  | Some x => negb (String.eqb x b)
  | None => true
  end.

(** [v || d] for an optional number: [undefined] and [0] give [d]. *)
Definition num_or (v : option Z) (d : Z) : Z :=
  match v with
  | Some x => if x =? 0 then d else x
  | None => d
  end.

(** [v || ''] for an optional string. *)
Definition str_or_empty (v : option string) : string :=
  match v with
  | Some s => s
  | None => ""
  end.

(** The property key that [obj[v]] uses when [v] is a string or
    [undefined]. *)
Definition property_key (v : option string) : string :=
  match v with
  | Some s => s
  | None => "undefined"
  end.

(** [s.charAt(i)]: the empty string when [i] is out of range. *)
Definition charAt (s : string) (i : nat) : string :=
  match String.get i s with
  | Some c => String c EmptyString
  | None => ""
  end.

(** [s.replace(/\.$/, '')]: the pattern matches a period that is the
    last character of the string, and nowhere else. *)
Fixpoint replace_trailing_period (s : string) : string :=
  match s with
  | EmptyString => EmptyString
  | String c rest =>
      match rest with
      | EmptyString => if Ascii.eqb c "." then EmptyString else s
      | String _ _ => String c (replace_trailing_period rest)
      end
  end.

(** [s.replace(/PAT/g, rep)] for a literal, non-empty pattern: scanning
    from the left, each occurrence is replaced and the scan resumes after
    it.  [skip] counts the characters of a matched occurrence still to be
    dropped. *)
Fixpoint replace_all_from (pat rep : string) (skip : nat) (s : string)
  : string :=
  match s with
  | EmptyString => EmptyString
  | String c rest =>
      match skip with
      | S k => replace_all_from pat rep k rest
      | O =>
          if String.prefix pat s
          then rep ++ replace_all_from pat rep (Nat.pred (String.length pat)) rest
          else String c (replace_all_from pat rep O rest)
      end
  end.

Definition replace_all (pat rep s : string) : string :=
  replace_all_from pat rep O s.

(** [xs.join('')]. *)
Definition join (xs : list string) : string :=
  fold_right String.append "" xs.

(** [Array.prototype.sort(cmp)], modelled as a stable insertion sort:
    an element is placed before the first element of the sorted tail that
    the comparator does not put before it.  For a consistent comparator
    every stable sort returns this list. *)
Section Sort.
Context {A : Type} (cmp : A -> A -> Z).

Fixpoint insert (x : A) (l : list A) : list A :=
  match l with
  | [] => [x]
  | y :: l' => if cmp x y <=? 0 then x :: l else y :: insert x l'
  end.

Definition sort (l : list A) : list A := fold_right insert [] l.
End Sort.

End Js.

(* ------------------------------------------------------------------ *)
(** * Helpers of [index.js] *)
(* ------------------------------------------------------------------ *)

(** [pluralize(word, count)]. *)
Definition pluralize (word : string) (count : nat) : string :=
  if Nat.eqb count 1 then word else word ++ "s".

(** The process environment: a variable is a string or is not set. *)
Definition Env := string -> option string.

(** [parseBoolEnvVar(varName)]: true only for the literal value "true". *)
Definition parseBoolEnvVar (env : Env) (varName : string) : bool :=
  match env varName with
  | Some v => String.eqb v "true"
  | None => false
  end.

(** [getEnvVar(varName)]: the value, or [false] (here [None]) when it is not
    set or is the empty string. *)
Definition getEnvVar (env : Env) (varName : string) : option string :=
  match env varName with
  | Some v => if String.eqb v "" then None else Some v
  | None => None
  end.

(* ------------------------------------------------------------------ *)
(** * Data model *)
(* ------------------------------------------------------------------ *)

(** One message of the engine, as the formatter reads it. *)
Record Message := mkMessage {
  m_severity : Z;
  m_fatal : bool;                (* an absent [fatal] reads as false *)
  m_ruleId : option string;
  m_line : option Z;
  m_column : option Z;
  m_message : string;
  m_source : option string
}.

(** One per-file result; [messages] may be missing. *)
Record FileResult := mkFileResult {
  r_filePath : string;
  r_messages : option (list Message)
}.

(** An element of [entries]: a message with the file path attached. *)
Record Entry := mkEntry {
  filePath : string;
  severity : Z;
  fatal : bool;
  ruleId : option string;
  line : option Z;
  column : option Z;
  message : string;
  source : option string
}.

(** What the formatter reads from the environment and the arguments after
    [--]: [EFF_ABSOLUTE_PATHS], [--eff-by-issue] and [--eff-filter]. *)
Record Config := mkConfig {
  absolutePathsToFile : bool;
  groupByIssue : bool;
  filterRule : option string
}.

Definition readConfig (env : Env) (byIssue : bool) (filter : option string)
  : Config :=
  {| absolutePathsToFile := parseBoolEnvVar env "EFF_ABSOLUTE_PATHS";
     groupByIssue := byIssue;
     filterRule := filter |}.

(** The styles of [chalk] that the formatter chains. *)
Inductive Style := red | yellow | green | cyan | bold.

(** Column alignments of [text-table]. *)
Inductive Align := AlignNone | AlignLeft | AlignRight.

(** A tally object: own properties in insertion order.  Rule identifiers
    that are array indices or names of members of [Object.prototype] are
    outside the model. *)
Definition Hash := list (string * nat).

Fixpoint hash_get (h : Hash) (key : string) : option nat :=
  match h with
  | [] => None
  | (k, v) :: h' => if String.eqb k key then Some v else hash_get h' key
  end.

(** [h[key] = (h[key] || 0) + 1]. *)
Fixpoint hash_incr (h : Hash) (key : string) : Hash :=
  match h with
  | [] => [(key, 1%nat)]
  | (k, v) :: h' =>
      if String.eqb k key then (k, S v) :: h' else (k, v) :: hash_incr h' key
  end.

Definition hash_keys (h : Hash) : list string := map fst h.

Definition hash_count (h : Hash) (key : string) : nat :=
  match hash_get h key with
  | Some v => v
  | None => O
  end.

(** The state that the callback of [entries.reduce] reads and updates. *)
Record RowState := mkRowState {
  seq : list (list string);
  summaryColor : Style;
  errorsHash : Hash;
  warningsHash : Hash;
  errors : nat;
  warnings : nat
}.

Definition initialState : RowState :=
  {| seq := [];
     summaryColor := yellow;
     errorsHash := [];
     warningsHash := [];
     errors := O;
     warnings := O |}.


(* ------------------------------------------------------------------ *)
(** * The pipeline of [module.exports] *)
(* ------------------------------------------------------------------ *)

Section Formatter.

(** [chalk.s1.s2...(text)], for the chain of styles [s1; s2; ...]. *)
Variable chalk : list Style -> string -> string.

(** [table(rows, { align, stringLength })] of [text-table], with the
    [stringLength] that measures a cell without its colour codes. *)
Variable table : list (list string) -> list Align -> string.

(** [path.resolve(p)]. *)
Variable resolve : string -> string.

(** [a.localeCompare(b)]: negative, zero or positive. *)
Variable localeCompare : string -> string -> Z.

Variable cfg : Config.

(** ** Flattening: [results.forEach(...)] *)

(** [extend({ filePath: p }, message)]: a new object that has the
    properties of [message] and the file path. *)
Definition extend (p : string) (m : Message) : Entry :=
  {| filePath := p;
     severity := m_severity m;
     fatal := m_fatal m;
     ruleId := m_ruleId m;
     line := m_line m;
     column := m_column m;
     message := m_message m;
     source := m_source m |}.

Definition entryPath (result : FileResult) : string :=
  if absolutePathsToFile cfg
  then resolve (r_filePath result)
  else r_filePath result.

(** The callback of [results.forEach]: [entries.concat(messages.map(...))]. *)
Definition flattenStep (entries : list Entry) (result : FileResult)
  : list Entry :=
  let messages :=
    match r_messages result with
    | Some ms => ms
    | None => []
    end in
  entries ++ map (extend (entryPath result)) messages.

Definition flatten (results : list FileResult) : list Entry :=
  fold_left flattenStep results [].

(** ** Sorting: the comparator given to [entries.sort] *)

Definition compareEntries (a b : Entry) : Z :=
  if severity b <? severity a then 1
  else if severity a <? severity b then -1
  else if groupByIssue cfg && Js.str_gt (ruleId a) (ruleId b) then 1
  else if groupByIssue cfg && Js.str_lt (ruleId a) (ruleId b) then -1
  else
    let pathSort := localeCompare (filePath a) (filePath b) in
    if negb (pathSort =? 0) then pathSort
    else if Js.num_gt (line a) (line b) then 1
    else if Js.num_lt (line a) (line b) then -1
    else if Js.num_gt (column a) (column b) then 1
    else if Js.num_lt (column a) (column b) then -1
    else 0.

Definition sortEntries (entries : list Entry) : list Entry :=
  Js.sort compareEntries entries.

(** ** Building rows: the callback of [entries.reduce] *)

(** [if (filterRule) { if (message.ruleId !== filterRule) return seq; }]:
    true when the callback returns early. *)
Definition filteredOut (e : Entry) : bool :=
  match filterRule cfg with
  | Some f => Js.truthy_str (Some f) && Js.strict_neq (ruleId e) f
  | None => false
  end.

(** [message.fatal || message.severity === 2]. *)
Definition isErrorEntry (e : Entry) : bool :=
  fatal e || (severity e =? 2).

(** [message.source !== undefined && message.source.length < 1000]. *)
Definition hasSource (e : Entry) : bool :=
  match source e with
  | Some s => Nat.ltb (String.length s) 1000
  | None => false
  end.

(** The number of times the body of
    [for (var i = 0; i < message.column; i++)] runs. *)
Definition arrowSteps (e : Entry) : nat :=
  match column e with
  | Some c => Z.to_nat c
  | None => O
  end.

(** The loop itself, started at index [i] with [n] iterations to go. *)
Fixpoint arrowLoop (src : string) (i n : nat) : string :=
  match n with
  | O => ""
  | S n' =>
      String
        (if String.eqb (Js.charAt src i) (String Js.TAB "") then Js.TAB else " "%char)
        (arrowLoop src (S i) n')
  end.

(** The value of [arrow] when the row is pushed. *)
Definition arrow (e : Entry) : string :=
  match source e with
  | Some s =>
      if hasSource e then arrowLoop s O (arrowSteps e) ++ "^" else ""
  | None => ""
  end.

(** [getKeyLink(key, isError)]; its [url] and [noLinkRules] are not used. *)
Definition getKeyLink (key : string) (isError : bool) : string :=
  chalk [bold] (if isError then chalk [red] key else chalk [yellow] key).

(** The fourth cell of a row. *)
Definition locationCell (e : Entry) : string :=
  "$MARKER$  " ++ chalk [bold] (filePath e) ++ " : "
  ++ chalk [bold; green]
       (Js.string_of_Z (Js.num_or (line e) 0) ++ ":"
        ++ Js.string_of_Z (Js.num_or (column e) 0))
  ++ "$MARKER$  "
  ++ (if hasSource e
      then Js.str_or_empty (source e) ++ "$MARKER$  " ++ arrow e
      else "").

(** The row pushed for an entry that is not filtered out.  The callback
    also computes [link] with [getFileLink]; no cell uses it. *)
Definition buildRow (e : Entry) : list string :=
  let isError := isErrorEntry e in
  let messageType := if isError then chalk [red] "✘" else chalk [yellow] "⚠" in
  let msg := Js.replace_trailing_period (message e) in
  [ "";
    messageType ++ "  " ++ getKeyLink (Js.str_or_empty (ruleId e)) isError;
    if isError then chalk [bold; red] msg else chalk [bold; yellow] msg;
    locationCell e ].

Definition rowStep (st : RowState) (e : Entry) : RowState :=
  if filteredOut e then st
  else if isErrorEntry e then
    {| seq := seq st ++ [buildRow e];
       summaryColor := red;
       errorsHash := hash_incr (errorsHash st) (Js.property_key (ruleId e));
       warningsHash := warningsHash st;
       errors := S (errors st);
       warnings := warnings st |}
  else
    {| seq := seq st ++ [buildRow e];
       summaryColor := yellow;
       errorsHash := errorsHash st;
       warningsHash := hash_incr (warningsHash st) (Js.property_key (ruleId e));
       errors := errors st;
       warnings := S (warnings st) |}.

Definition buildRows (entries : list Entry) : RowState :=
  fold_left rowStep entries initialState.

(** ** The summaries *)

(** The comparator of [printSummary]: [hash[a] > hash[b] ? -1 : 1]. *)
Definition compareCounts (hash : Hash) (a b : string) : Z :=
  if Nat.ltb (hash_count hash b) (hash_count hash a) then -1 else 1.

Definition printSummary (hash : Hash) (title : string) (method : Style)
  : string :=
  let isRed := match method with red => true | _ => false end in
  Js.LF ++ chalk [method] (title ++ ":" ++ Js.LF)
  ++ table
       (map (fun key =>
               [ ""; Js.string_of_nat (hash_count hash key); getKeyLink key isRed ])
            (Js.sort (compareCounts hash) (hash_keys hash)))
       [AlignNone; AlignRight; AlignLeft].

(** The array joined into the summary line. *)
Definition summaryLine (total errs warns : nat) : string :=
  Js.join
    [ "✘ ";
      Js.string_of_nat total;
      pluralize " problem" total;
      " (";
      Js.string_of_nat errs;
      pluralize " error" errs;
      ", ";
      Js.string_of_nat warns;
      pluralize " warning" warns;
      ")" ++ Js.LF ].

Definition separator : string :=
  Js.LF ++ Js.LF
  ++ "==========================================================".

(** The main table with its markers turned into line breaks. *)
Definition mainTable (st : RowState) : string :=
  Js.replace_all "$MARKER$" Js.LF
    (table (seq st) [AlignNone; AlignLeft; AlignLeft; AlignLeft]).

(** The text appended to [output] when [total > 0]. *)
Definition reportTail (total : nat) (st : RowState) : string :=
  chalk [summaryColor st; bold] (summaryLine total (errors st) (warnings st))
  ++ (if Nat.ltb 0 (errors st)
      then printSummary (errorsHash st) "Errors" red else "")
  ++ (if Nat.ltb 0 (warnings st)
      then printSummary (warningsHash st) "Warnings" yellow else "")
  ++ separator.

(** ** [module.exports]; a [results] that is [null] or [undefined] is [None]. *)
Definition formatter (results : option (list FileResult)) : string :=
  let results :=
    match results with
    | Some rs => rs
    | None => []
    end in
  let entries := sortEntries (flatten results) in
  let st := buildRows entries in
  let output := Js.LF ++ mainTable st ++ Js.LF ++ Js.LF in
  let total := List.length entries in
  if Nat.ltb 0 total then output ++ reportTail total st else "".

End Formatter.


(* ------------------------------------------------------------------ *)
(** * The orders and predicates of the specification *)
(* ------------------------------------------------------------------ *)

(** Tuple comparison, left to right: the first key that is not equal
    decides. *)
Definition lexThen (c1 c2 : comparison) : comparison :=
  match c1 with
  | Eq => c2
  | _ => c1
  end.

(** The five-key order in the words of the specification: severity, then
    (when grouping by category) the rule identifier with an absent one taken
    as the empty string, then the file path by the locale-aware comparison,
    then line and column, absent ones taken as 0. *)
Definition specCompare (localeCompare : string -> string -> Z)
  (group : bool) (a b : Entry) : comparison :=
  lexThen (severity a ?= severity b)
    (lexThen
       (if group
        then String.compare (Js.str_or_empty (ruleId a)) (Js.str_or_empty (ruleId b))
        else Eq)
       (lexThen (localeCompare (filePath a) (filePath b) ?= 0)
          (lexThen
             (match line a with Some x => x | None => 0 end
              ?= match line b with Some x => x | None => 0 end)
             (match column a with Some x => x | None => 0 end
              ?= match column b with Some x => x | None => 0 end)))).

(** [a] may stand before [b] in a list sorted by the five keys. *)
Definition specBefore (localeCompare : string -> string -> Z)
  (group : bool) (a b : Entry) : Prop :=
  specCompare localeCompare group a b <> Gt.

(** [a] and [b] are equal on all five keys. *)
Definition sameKeys (localeCompare : string -> string -> Z)
  (group : bool) (a b : Entry) : bool :=
  match specCompare localeCompare group a b with
  | Eq => true
  | _ => false
  end.

(** An entry that carries every key the comparator reads. *)
Definition keyed (group : bool) (e : Entry) : Prop :=
  line e <> None /\ column e <> None /\ (group = true -> ruleId e <> None).

(** The rule identifier of [e] is exactly the string [f]. *)
Definition ruleIdIs (f : string) (e : Entry) : bool :=
  match ruleId e with
  | Some r => String.eqb r f
  | None => false
  end.

(** The last character of [s] is a period. *)
Fixpoint endsWithPeriod (s : string) : bool :=
  match s with
  | EmptyString => false
  | String c rest =>
      match rest with
      | EmptyString => Ascii.eqb c "."
      | String _ _ => endsWithPeriod rest
      end
  end.

(** The plural ending of the specification: an "s" unless the count is
    exactly 1. *)
Definition pluralEnding (count : nat) : string :=
  match count with
  | 1%nat => ""
  | _ => "s"
  end.

(** The pointer character under index [i] of the source line [src]. *)
Definition pointerChar (src : string) (i : nat) : ascii :=
  match String.get i src with
  | Some c => if Ascii.eqb c Js.TAB then Js.TAB else " "%char
  | None => " "%char
  end.

(** A configuration with the filter taken away. *)
Definition withoutFilter (cfg : Config) : Config :=
  {| absolutePathsToFile := absolutePathsToFile cfg;
     groupByIssue := groupByIssue cfg;
     filterRule := None |}.

(** A three-way comparison that orders its arguments consistently:
    swapping them swaps the verdict, and "not after" is transitive. *)
Definition Consistent {A : Type} (c : A -> A -> comparison) : Prop :=
  (forall a b, c b a = CompOpp (c a b))
  /\ (forall a b d, c a b <> Gt -> c b d <> Gt -> c a d <> Gt).

(** The same for a comparator that answers with the sign of a number, as
    [localeCompare] does. *)
Definition consistentComparator (cmp : string -> string -> Z) : Prop :=
  (forall a b, Z.sgn (cmp b a) = - Z.sgn (cmp a b))
  /\ (forall a b d, cmp a b <= 0 -> cmp b d <= 0 -> cmp a d <= 0).

(** A result without messages: the collection is missing or empty. *)
Definition noMessages (r : FileResult) : Prop :=
  r_messages r = None \/ r_messages r = Some [].

(** The diagnostics that survive the filter step. *)
Definition survivors (cfg : Config) (entries : list Entry) : list Entry :=
  filter (fun e => negb (filteredOut cfg e)) entries.

(* ------------------------------------------------------------------ *)
(** * Instances of the collaborators, for the examples *)
(* ------------------------------------------------------------------ *)

(** [chalk] with colours switched off. *)
Definition plainChalk (styles : list Style) (text : string) : string := text.

(** A table without padding: cells separated by two spaces, rows by line
    feeds. *)
Fixpoint joinWith (sep : string) (xs : list string) : string :=
  match xs with
  | [] => ""
  | [x] => x
  | x :: rest => x ++ sep ++ joinWith sep rest
  end.

Definition plainTable (rows : list (list string)) (align : list Align)
  : string :=
  joinWith Js.LF (map (joinWith "  ") rows).

(** [path.resolve] in the working directory [/work]. *)
Definition resolveInWork (p : string) : string := "/work/" ++ p.

(** A comparison of strings by character code. *)
Definition codeCompare (a b : string) : Z :=
  match String.compare a b with
  | Lt => -1
  | Eq => 0
  | Gt => 1
  end.

Definition defaultConfig : Config :=
  {| absolutePathsToFile := false; groupByIssue := false; filterRule := None |}.

(** Example diagnostics. *)
Definition semiError : Message :=
  {| m_severity := 2; m_fatal := false; m_ruleId := Some "semi";
     m_line := Some 3; m_column := Some 8;
     m_message := "Missing semicolon.";
     m_source := Some "  const x = 1" |}.

Definition unusedWarning : Message :=
  {| m_severity := 1; m_fatal := false; m_ruleId := Some "no-unused-vars";
     m_line := Some 1; m_column := Some 5;
     m_message := "'y' is defined but never used";
     m_source := None |}.

Definition parseError : Message :=
  {| m_severity := 2; m_fatal := true; m_ruleId := None;
     m_line := Some 1; m_column := Some 1;
     m_message := "Parsing error: Unexpected token";
     m_source := None |}.


(** Example entries and configurations. *)
Definition semiEntry : Entry := extend "a.js" semiError.
Definition unusedEntry : Entry := extend "a.js" unusedWarning.
Definition parseEntry : Entry := extend "a.js" parseError.

Definition tabEntry : Entry :=
  {| filePath := "a.js"; severity := 1; fatal := false;
     ruleId := Some "no-tabs"; line := Some 1; column := Some 3;
     message := "Unexpected tab character.";
     source := Some (String Js.TAB "foo()") |}.

Definition emptyFilterConfig : Config :=
  {| absolutePathsToFile := false; groupByIssue := false;
     filterRule := Some "" |}.

Definition semiFilterConfig : Config :=
  {| absolutePathsToFile := false; groupByIssue := false;
     filterRule := Some "semi" |}.

Definition groupingConfig : Config :=
  {| absolutePathsToFile := false; groupByIssue := true;
     filterRule := None |}.

(** Entries for the examples of the sort: a result for [b.js] with a
    diagnostic that has no rule identifier, two diagnostics that differ in
    their message only, and three diagnostics of which the middle one has
    no line. *)
Definition parseEntryB : Entry := extend "b.js" parseError.

Definition firstDuplicate : Entry :=
  {| filePath := "a.js"; severity := 1; fatal := false;
     ruleId := Some "no-undef"; line := Some 4; column := Some 2;
     message := "'foo' is not defined"; source := None |}.

Definition secondDuplicate : Entry :=
  {| filePath := "a.js"; severity := 1; fatal := false;
     ruleId := Some "no-undef"; line := Some 4; column := Some 2;
     message := "'bar' is not defined"; source := None |}.

Definition atLine (l : option Z) : Entry :=
  {| filePath := "a.js"; severity := 1; fatal := false;
     ruleId := Some "no-undef"; line := l; column := Some 1;
     message := "'foo' is not defined"; source := None |}.

(* ------------------------------------------------------------------ *)
(** * Flattening over a store of objects *)
(* ------------------------------------------------------------------ *)

(** The records above are values: they cannot show whether the callback of
    [results.forEach] writes into an object it was given.  This module
    keeps the objects of the engine in a store, lets [extend] write into
    its target the way the package does, and relates the outcome to
    [flatten]. *)

Module Heap.

Definition loc := nat.

Inductive value :=
| VUndefined
| VBool (b : bool)
| VNum (n : Z)
| VStr (s : string)
| VArr (items : list loc).

(** An object maps every property name to its value, [VUndefined] for a
    property it does not have. *)
Definition object := string -> value.

Definition heap := list object.

Definition emptyObject : object := fun _ => VUndefined.

(** [o[k] = v]. *)
Definition setProp (o : object) (k : string) (v : value) : object :=
  fun k' => if String.eqb k' k then v else o k'.

(** Modelled from the spec: the package [extend], which the sources call
    and do not contain, is the shallow-merge utility that attaches the file
    path to a diagnostic.  [extend(target, source)] assigns to [target]
    every property of [source] whose value is not [undefined], writes
    nothing else, and returns [target]; this is what it leaves in
    [target]. *)
Definition extendObject (target source : object) : object :=
  fun k =>
    match source k with
    | VUndefined => target k
    | v => v
    end.

Definition read (h : heap) (l : loc) : option object := nth_error h l.

Fixpoint write (h : heap) (l : loc) (o : object) : heap :=
  match h, l with
  | [], _ => []
  | _ :: h', O => o :: h'
  | x :: h', S l' => x :: write h' l' o
  end.

(** A new object, at the first unused location. *)
Definition alloc (h : heap) (o : object) : loc * heap :=
  (List.length h, (h ++ [o])%list).

(** [extend(target, source)] on the store: the only object written is the
    one at [target]. *)
Definition extendAt (h : heap) (target source : loc) : option heap :=
  match read h target, read h source with
  | Some t, Some s => Some (write h target (extendObject t s))
  | _, _ => None
  end.

Definition truthy (v : value) : bool :=
  match v with
  | VUndefined => false
  | VBool b => b
  | VNum n => negb (n =? 0)
  | VStr s => negb (String.eqb s "")
  | VArr _ => true
  end.

Notation "x <- c ;; k" :=
  (match c with Some x => k | None => None end)
  (at level 61, c at next level, right associativity).

Section Flatten.

Variable resolve : string -> string.
Variable absolutePaths : bool.

(** [path.resolve(v)] throws when [v] is not a string; a throw is [None]. *)
Definition resolveValue (v : value) : option value :=
  match v with
  | VStr s => Some (VStr (resolve s))
  | _ => None
  end.

(** [absolutePathsToFile ? path.resolve(result.filePath) : result.filePath]. *)
Definition pathValue (result : object) : option value :=
  if absolutePaths
  then resolveValue (result "filePath")
  else Some (result "filePath").

(** [result.messages || []]; [None] when the value has no [map]. *)
Definition messagesOf (result : object) : option (list loc) :=
  match result "messages" with
  | VArr items => Some items
  | v => if truthy v then None else Some []
  end.

(** The callback of [messages.map]: a new object literal with the file
    path, then [extend] copies the message into it. *)
Definition flattenMessage (h : heap) (result : object) (m : loc)
  : option (loc * heap) :=
  p <- pathValue result ;;
  let (t, h1) := alloc h (setProp emptyObject "filePath" p) in
  h2 <- extendAt h1 t m ;;
  Some (t, h2).

Fixpoint mapMessages (h : heap) (result : object) (ms : list loc)
  : option (list loc * heap) :=
  match ms with
  | [] => Some ([], h)
  | m :: ms' =>
      r1 <- flattenMessage h result m ;;
      r2 <- mapMessages (snd r1) result ms' ;;
      Some (fst r1 :: fst r2, snd r2)
  end.

(** The callback of [results.forEach]. *)
Definition flattenResult (entries : list loc) (h : heap) (r : loc)
  : option (list loc * heap) :=
  result <- read h r ;;
  ms <- messagesOf result ;;
  r1 <- mapMessages h result ms ;;
  Some ((entries ++ fst r1)%list, snd r1).

Fixpoint flattenHeap (entries : list loc) (h : heap) (results : list loc)
  : option (list loc * heap) :=
  match results with
  | [] => Some (entries, h)
  | r :: rest =>
      r1 <- flattenResult entries h r ;;
      flattenHeap (fst r1) (snd r1) rest
  end.

(** The object that one call of the callback leaves at the new location:
    the literal with the file path [p], extended by the message. *)
Definition copyOf (p : value) (message : object) : object :=
  extendObject (setProp emptyObject "filePath" p) message.

(** The objects that the references of an array point to. *)
Definition readAll (h : heap) (ms : list loc) : list object :=
  flat_map (fun m => match read h m with Some o => [o] | None => [] end) ms.

(** The copies made for one result, and for all of them, in order. *)
Definition copiesOfResult (h : heap) (r : loc) : list object :=
  match read h r with
  | Some result =>
      match pathValue result, messagesOf result with
      | Some p, Some ms => map (copyOf p) (readAll h ms)
      | _, _ => []
      end
  | None => []
  end.

Definition copiesOf (h : heap) (results : list loc) : list object :=
  flat_map (copiesOfResult h) results.

(** A result of the store that the callback can process: its path can be
    attached and its messages are objects of the store. *)
Definition validResult (h : heap) (r : loc) : Prop :=
  exists result ms p,
    read h r = Some result
    /\ messagesOf result = Some ms
    /\ pathValue result = Some p
    /\ Forall (fun m => (m < List.length h)%nat) ms.

End Flatten.

(** ** Reading the records of the pipeline off the store *)

Definition asOptString (v : value) : option (option string) :=
  match v with
  | VUndefined => Some None
  | VStr s => Some (Some s)
  | _ => None
  end.

Definition asOptNum (v : value) : option (option Z) :=
  match v with
  | VUndefined => Some None
  | VNum n => Some (Some n)
  | _ => None
  end.

Definition asNum (v : value) : option Z :=
  match v with
  | VNum n => Some n
  | _ => None
  end.

Definition asString (v : value) : option string :=
  match v with
  | VStr s => Some s
  | _ => None
  end.

(** The message that the pipeline sees in an object of the engine. *)
Definition decodeMessage (o : object) : option Message :=
  sev <- asNum (o "severity") ;;
  rule <- asOptString (o "ruleId") ;;
  ln <- asOptNum (o "line") ;;
  col <- asOptNum (o "column") ;;
  msg <- asString (o "message") ;;
  src <- asOptString (o "source") ;;
  match o "filePath" with
  | VUndefined =>
      Some {| m_severity := sev; m_fatal := truthy (o "fatal");
              m_ruleId := rule; m_line := ln; m_column := col;
              m_message := msg; m_source := src |}
  | _ => None
  end.

(** The entry that the pipeline sees in an element of [entries]. *)
Definition decodeEntry (o : object) : option Entry :=
  p <- asString (o "filePath") ;;
  sev <- asNum (o "severity") ;;
  rule <- asOptString (o "ruleId") ;;
  ln <- asOptNum (o "line") ;;
  col <- asOptNum (o "column") ;;
  msg <- asString (o "message") ;;
  src <- asOptString (o "source") ;;
  Some {| filePath := p; severity := sev; fatal := truthy (o "fatal");
          ruleId := rule; line := ln; column := col;
          message := msg; source := src |}.

Fixpoint decodeMessages (h : heap) (ms : list loc) : option (list Message) :=
  match ms with
  | [] => Some []
  | m :: ms' =>
      o <- read h m ;;
      x <- decodeMessage o ;;
      xs <- decodeMessages h ms' ;;
      Some (x :: xs)
  end.

Definition decodeResult (h : heap) (o : object) : option FileResult :=
  p <- asString (o "filePath") ;;
  match o "messages" with
  | VUndefined => Some {| r_filePath := p; r_messages := None |}
  | VArr items =>
      xs <- decodeMessages h items ;;
      Some {| r_filePath := p; r_messages := Some xs |}
  | _ => None
  end.

Fixpoint decodeResults (h : heap) (rs : list loc) : option (list FileResult) :=
  match rs with
  | [] => Some []
  | r :: rest =>
      o <- read h r ;;
      x <- decodeResult h o ;;
      xs <- decodeResults h rest ;;
      Some (x :: xs)
  end.

Fixpoint decodeEntries (h : heap) (es : list loc) : option (list Entry) :=
  match es with
  | [] => Some []
  | e :: es' =>
      o <- read h e ;;
      x <- decodeEntry o ;;
      xs <- decodeEntries h es' ;;
      Some (x :: xs)
  end.

(** An example store: one result at location 2 with the messages at
    locations 0 and 1. *)
Definition semiObject : object :=
  setProp (setProp (setProp (setProp (setProp (setProp emptyObject
    "severity" (VNum 2)) "ruleId" (VStr "semi")) "line" (VNum 3))
    "column" (VNum 8)) "message" (VStr "Missing semicolon."))
    "nodeType" (VStr "ExpressionStatement").

Definition fatalObject : object :=
  setProp (setProp (setProp emptyObject
    "severity" (VNum 2)) "fatal" (VBool true))
    "message" (VStr "Parsing error: Unexpected token").

Definition resultObject : object :=
  setProp (setProp emptyObject "filePath" (VStr "src/a.js"))
    "messages" (VArr [0%nat; 1%nat]).

Definition exampleHeap : heap := [semiObject; fatalObject; resultObject].

End Heap.


(* ------------------------------------------------------------------ *)
(** * Reading the arguments *)
(* ------------------------------------------------------------------ *)

(** [xs.indexOf(x)] on an array of strings: the index of the first element
    equal to [x], or [-1]. *)
Fixpoint indexOf (x : string) (xs : list string) : Z :=
  match xs with
  | [] => -1
  | y :: ys =>
      if String.eqb y x then 0
      else
        let i := indexOf x ys in
        if i <? 0 then -1 else i + 1
  end.

(** [xs.slice(start)]: a negative [start] counts from the end. *)
Definition slice {A : Type} (start : Z) (xs : list A) : list A :=
  if start <? 0
  then skipn (Z.to_nat (Z.max 0 (Z.of_nat (List.length xs) + start))) xs
  else skipn (Z.to_nat start) xs.

(** [process.argv.slice(process.argv.indexOf('--') + 1)]: the arguments
    handed to [minimist]. *)
Definition restArgs (argv : list string) : list string :=
  slice (indexOf "--" argv + 1) argv.

(** The character [c] occurs in [s]. *)
Fixpoint hasChar (c : ascii) (s : string) : bool :=
  match s with
  | EmptyString => false
  | String d rest => Ascii.eqb d c || hasChar c rest
  end.


(* ------------------------------------------------------------------ *)
(** * Properties: empty reports *)
(* ------------------------------------------------------------------ *)

Section EmptyReports.

Variable chalk : list Style -> string -> string.
Variable table : list (list string) -> list Align -> string.
Variable resolve : string -> string.
Variable localeCompare : string -> string -> Z.
Variable cfg : Config.

Lemma flattenStep_noMessages (acc : list Entry) (r : FileResult) :
  noMessages r -> flattenStep resolve cfg acc r = acc.
Proof.
  unfold flattenStep; intros [-> | ->]; cbn; apply app_nil_r.
Qed.

Lemma fold_flattenStep_noMessages (results : list FileResult) :
  Forall noMessages results ->
  forall acc, fold_left (flattenStep resolve cfg) results acc = acc.
Proof.
  induction 1 as [| r rs Hr _ IH]; intros acc; cbn.
  - reflexivity.
  - rewrite flattenStep_noMessages by assumption. apply IH.
Qed.

(** When no result has a message the report is the empty string. *)
Lemma formatter_no_diagnostics (results : list FileResult) :
  Forall noMessages results ->
  formatter chalk table resolve localeCompare cfg (Some results) = "".
Proof.
  intros H. unfold formatter, flatten.
  rewrite (fold_flattenStep_noMessages results H).
  reflexivity.
Qed.

End EmptyReports.

(** C10. Called with [null] or [undefined] in place of the results, the
    formatter takes the missing sequence to be empty and returns the empty
    string, whatever the configuration and the collaborators. *)
Theorem formatter_missing_results :
  forall chalk table resolve localeCompare cfg,
    formatter chalk table resolve localeCompare cfg None = "".
Proof.
  intros. reflexivity.
Qed.

(** C1, at an input that the filter empties.  One file with one "semi"
    error and the filter "no-undef": every diagnostic is filtered out and
    no row is built, yet [total] is the length of [entries], so a report
    with the summary line of one problem is returned instead of the empty
    string. *)
Theorem formatter_filter_removes_all :
  forall chalk table resolve localeCompare,
    let cfg := mkConfig false false (Some "no-undef") in
    let results := [ mkFileResult "a.js" (Some [semiError]) ] in
    let entries := sortEntries localeCompare cfg (flatten resolve cfg results) in
    forallb (filteredOut cfg) entries = true
    /\ seq (buildRows chalk cfg entries) = []
    /\ formatter chalk table resolve localeCompare cfg (Some results)
       = (Js.LF
          ++ Js.replace_all "$MARKER$" Js.LF
               (table [] [AlignNone; AlignLeft; AlignLeft; AlignLeft])
          ++ Js.LF ++ Js.LF)
         ++ chalk [yellow; bold] ("✘ 1 problem (0 errors, 0 warnings)" ++ Js.LF)
         ++ separator
    /\ formatter chalk table resolve localeCompare cfg (Some results) <> "".
Proof.
  intros. split; [reflexivity |]. split; [reflexivity |].
  split; [reflexivity |].
  intros H. cbv in H. discriminate H.
Qed.


(* ------------------------------------------------------------------ *)
(** * Properties: rows, counters and tallies *)
(* ------------------------------------------------------------------ *)

Lemma hash_get_incr (h : Hash) (key k : string) :
  hash_get (hash_incr h key) k
  = if String.eqb key k
    then Some (S (hash_count h key))
    else hash_get h k.
Proof.
  unfold hash_count.
  induction h as [| [k0 v0] h IH]; cbn.
  - destruct (String.eqb key k); reflexivity.
  - destruct (String.eqb k0 key) eqn:E0; cbn.
    + apply String.eqb_eq in E0; subst k0.
      destruct (String.eqb key k); reflexivity.
    + rewrite IH.
      destruct (String.eqb key k) eqn:E1.
      * apply String.eqb_eq in E1; subst k. rewrite E0. reflexivity.
      * reflexivity.
Qed.

(** [hash_incr] adds one to the count under its key and leaves every other
    count alone. *)
Lemma hash_count_incr (h : Hash) (key k : string) :
  hash_count (hash_incr h key) k
  = if String.eqb key k then S (hash_count h k) else hash_count h k.
Proof.
  unfold hash_count at 1. rewrite hash_get_incr.
  destruct (String.eqb key k) eqn:E.
  - apply String.eqb_eq in E; subst k. reflexivity.
  - reflexivity.
Qed.

Section Rows.

Variable chalk : list Style -> string -> string.
Variable cfg : Config.

(** What one call of the callback does to the state, by case. *)
Lemma rowStep_cases (st : RowState) (e : Entry) :
  (filteredOut cfg e = true /\ rowStep chalk cfg st e = st)
  \/ (filteredOut cfg e = false /\ isErrorEntry e = true
      /\ seq (rowStep chalk cfg st e) = (seq st ++ [buildRow chalk e])%list
      /\ errors (rowStep chalk cfg st e) = S (errors st)
      /\ warnings (rowStep chalk cfg st e) = warnings st
      /\ errorsHash (rowStep chalk cfg st e)
         = hash_incr (errorsHash st) (Js.property_key (ruleId e))
      /\ warningsHash (rowStep chalk cfg st e) = warningsHash st)
  \/ (filteredOut cfg e = false /\ isErrorEntry e = false
      /\ seq (rowStep chalk cfg st e) = (seq st ++ [buildRow chalk e])%list
      /\ errors (rowStep chalk cfg st e) = errors st
      /\ warnings (rowStep chalk cfg st e) = S (warnings st)
      /\ errorsHash (rowStep chalk cfg st e) = errorsHash st
      /\ warningsHash (rowStep chalk cfg st e)
         = hash_incr (warningsHash st) (Js.property_key (ruleId e))).
Proof.
  unfold rowStep.
  destruct (filteredOut cfg e); [left; split; reflexivity |].
  destruct (isErrorEntry e); [right; left | right; right]; cbn;
    repeat split; reflexivity.
Qed.

(** An entry is an error exactly when it is fatal or of severity 2. *)
Lemma isErrorEntry_iff (e : Entry) :
  isErrorEntry e = true <-> fatal e = true \/ severity e = 2.
Proof.
  unfold isErrorEntry. rewrite orb_true_iff, Z.eqb_eq. reflexivity.
Qed.

Lemma fold_rowStep_seq (entries : list Entry) :
  forall st,
    seq (fold_left (rowStep chalk cfg) entries st)
    = (seq st ++ map (buildRow chalk) (survivors cfg entries))%list.
Proof.
  unfold survivors.
  induction entries as [| e es IH]; intros st; cbn.
  - symmetry; apply app_nil_r.
  - rewrite IH.
    destruct (rowStep_cases st e) as [[Hf Hst] | [(Hf & _ & Hs & _) | (Hf & _ & Hs & _)]];
      rewrite Hf; cbn.
    + rewrite Hst. reflexivity.
    + rewrite Hs, <- app_assoc. reflexivity.
    + rewrite Hs, <- app_assoc. reflexivity.
Qed.

Lemma fold_rowStep_counters (entries : list Entry) :
  forall st,
    (errors (fold_left (rowStep chalk cfg) entries st)
     + warnings (fold_left (rowStep chalk cfg) entries st)
     = errors st + warnings st + List.length (survivors cfg entries))%nat.
Proof.
  unfold survivors.
  induction entries as [| e es IH]; intros st; cbn.
  - lia.
  - rewrite IH.
    destruct (rowStep_cases st e)
      as [[Hf Hst] | [(Hf & _ & _ & He & Hw & _) | (Hf & _ & _ & He & Hw & _)]];
      rewrite Hf; cbn.
    + rewrite Hst. lia.
    + rewrite He, Hw. lia.
    + rewrite He, Hw. lia.
Qed.

(** One row is rendered for each diagnostic that survives the filter. *)
Lemma rows_are_survivors (entries : list Entry) :
  List.length (seq (buildRows chalk cfg entries)) = List.length (survivors cfg entries).
Proof.
  unfold buildRows. rewrite fold_rowStep_seq. cbn. apply length_map.
Qed.

(** The two global counters add up to the number of rendered rows. *)
Lemma counters_are_rows (entries : list Entry) :
  (errors (buildRows chalk cfg entries) + warnings (buildRows chalk cfg entries)
   = List.length (seq (buildRows chalk cfg entries)))%nat.
Proof.
  rewrite rows_are_survivors. unfold buildRows.
  rewrite fold_rowStep_counters. reflexivity.
Qed.

(** The callback without a filter, run on the survivors only, reaches the
    same state. *)
Lemma fold_rowStep_survivors (entries : list Entry) :
  forall st,
    fold_left (rowStep chalk cfg) entries st
    = fold_left (rowStep chalk (withoutFilter cfg)) (survivors cfg entries) st.
Proof.
  unfold survivors.
  induction entries as [| e es IH]; intros st; cbn.
  - reflexivity.
  - rewrite IH. unfold rowStep at 2.
    destruct (filteredOut cfg e); cbn.
    + reflexivity.
    + reflexivity.
Qed.

End Rows.

(** C2, at an input that the filter thins out.  One file with a "semi"
    error and a "no-unused-vars" warning, and the filter "semi": one
    diagnostic survives, one row is built and the two counters add up to
    one, but the summary line reports [entries.length], the count before
    the filter: two problems. *)
Theorem summary_total_counts_filtered_out :
  forall chalk table resolve localeCompare,
    let cfg := semiFilterConfig in
    let results := [ mkFileResult "a.js" (Some [semiError; unusedWarning]) ] in
    let entries := sortEntries localeCompare cfg (flatten resolve cfg results) in
    let st := buildRows chalk cfg entries in
    List.length (survivors cfg entries) = 1%nat
    /\ List.length (seq st) = 1%nat
    /\ (errors st + warnings st)%nat = 1%nat
    /\ List.length entries = 2%nat
    /\ formatter chalk table resolve localeCompare cfg (Some results)
       = (Js.LF ++ mainTable table st ++ Js.LF ++ Js.LF)
         ++ chalk [red; bold] ("✘ 2 problems (1 error, 0 warnings)" ++ Js.LF)
         ++ printSummary chalk table [("semi", 1%nat)] "Errors" red
         ++ separator.
Proof.
  intros. repeat split; reflexivity.
Qed.

(** C3, amended.  When the filter is set to a non-empty string, the
    diagnostics that survive are exactly those whose rule identifier is
    that string, compared character by character; a diagnostic without a
    rule identifier is filtered out; and the rows, the two counters and the
    two tallies (from which the summary tables are printed) are those of
    the surviving diagnostics alone. *)
Theorem filter_keeps_exactly_matching_rule :
  forall chalk cfg f entries,
    filterRule cfg = Some f ->
    f <> "" ->
    (forall e, filteredOut cfg e = false <-> ruleId e = Some f)
    /\ (forall e, ruleId e = None -> filteredOut cfg e = true)
    /\ survivors cfg entries = filter (ruleIdIs f) entries
    /\ buildRows chalk cfg entries
       = buildRows chalk (withoutFilter cfg) (filter (ruleIdIs f) entries).
Proof.
  intros chalk cfg f entries Hf Hne.
  assert (Hout : forall e, filteredOut cfg e = negb (ruleIdIs f e)).
  { intros e. unfold filteredOut, ruleIdIs, Js.truthy_str, Js.strict_neq.
    rewrite Hf.
    destruct (String.eqb f "") eqn:E.
    - apply String.eqb_eq in E. contradiction.
    - cbn. destruct (ruleId e); reflexivity. }
  assert (Hsurv : survivors cfg entries = filter (ruleIdIs f) entries).
  { unfold survivors. apply filter_ext. intros e. rewrite Hout.
    apply negb_involutive. }
  split; [| split; [| split]].
  - intros e. rewrite Hout. unfold ruleIdIs.
    destruct (ruleId e) as [r |]; cbn.
    + rewrite negb_false_iff, String.eqb_eq.
      split; [intros -> | intros [= ->]]; reflexivity.
    + split; discriminate.
  - intros e He. rewrite Hout. unfold ruleIdIs. rewrite He. reflexivity.
  - exact Hsurv.
  - unfold buildRows. rewrite fold_rowStep_survivors, Hsurv. reflexivity.
Qed.

Lemma filter_keeps_exactly_matching_rule_witness :
  (filteredOut semiFilterConfig semiEntry = false
   <-> ruleId semiEntry = Some "semi")
  /\ buildRows plainChalk semiFilterConfig [unusedEntry; parseEntry; semiEntry]
     = buildRows plainChalk (withoutFilter semiFilterConfig) [semiEntry].
Proof.
  destruct (filter_keeps_exactly_matching_rule plainChalk semiFilterConfig
              "semi" [unusedEntry; parseEntry; semiEntry])
    as (H1 & _ & _ & H4).
  - reflexivity.
  - discriminate.
  - split; [apply H1 | exact H4].
Defined.

(** C3 as stated fails when the filter is set to the empty string: the
    guard [if (filterRule)] is false, nothing is filtered, and a diagnostic
    of the rule "semi" survives although "semi" is not the filter. *)
Lemma empty_filter_keeps_other_rules :
  filterRule emptyFilterConfig = Some ""
  /\ ruleId semiEntry = Some "semi"
  /\ ruleIdIs "" semiEntry = false
  /\ filteredOut emptyFilterConfig semiEntry = false
  /\ survivors emptyFilterConfig [semiEntry] = [semiEntry]
  /\ errors (buildRows plainChalk emptyFilterConfig [semiEntry]) = 1%nat.
Proof.
  repeat split; reflexivity.
Qed.

(** Every diagnostic that is not filtered out is an error exactly when it
    is fatal or of severity 2 and a warning otherwise; an error adds one to
    [errors] and to the error tally under the property key of its rule
    identifier and touches nothing else, a warning does the same on the
    warning side. *)
Lemma rowStep_classifies :
  forall chalk cfg st e,
    filteredOut cfg e = false ->
    let st' := rowStep chalk cfg st e in
    let key := Js.property_key (ruleId e) in
    (fatal e = true \/ severity e = 2 ->
     errors st' = S (errors st) /\ warnings st' = warnings st
     /\ (forall k, hash_count (errorsHash st') k
                   = if String.eqb key k then S (hash_count (errorsHash st) k)
                     else hash_count (errorsHash st) k)
     /\ warningsHash st' = warningsHash st)
    /\ (~ (fatal e = true \/ severity e = 2) ->
        errors st' = errors st /\ warnings st' = S (warnings st)
        /\ errorsHash st' = errorsHash st
        /\ (forall k, hash_count (warningsHash st') k
                      = if String.eqb key k then S (hash_count (warningsHash st) k)
                        else hash_count (warningsHash st) k)).
Proof.
  intros chalk cfg st e Hf st' key. subst st' key.
  rewrite <- isErrorEntry_iff.
  destruct (rowStep_cases chalk cfg st e)
    as [[Hf' _] | [(_ & Hi & _ & He & Hw & Heh & Hwh) | (_ & Hi & _ & He & Hw & Heh & Hwh)]].
  - congruence.
  - split; [intros _ | intros Hn; contradiction].
    repeat split; try assumption.
    intros k. rewrite Heh. apply hash_count_incr.
  - split; [intros Hy; congruence | intros _].
    repeat split; try assumption.
    intros k. rewrite Hwh. apply hash_count_incr.
Qed.

(** C6, at a diagnostic without a rule identifier.  A fatal parse error is
    classified as an error and counted once, but the tally is indexed by
    [message.ruleId] itself, so the count is kept under the key
    "undefined"; nothing is kept under the empty string, the key that the
    row label of the same diagnostic uses. *)
Theorem absent_ruleId_tallied_as_undefined :
  forall chalk,
    let st := rowStep chalk defaultConfig initialState parseEntry in
    ruleId parseEntry = None
    /\ isErrorEntry parseEntry = true
    /\ errors st = 1%nat
    /\ warnings st = 0%nat
    /\ errorsHash st = [("undefined", 1%nat)]
    /\ hash_get (errorsHash st) "" = None
    /\ nth 1 (buildRow chalk parseEntry) ""
       = chalk [red] "✘" ++ "  " ++ getKeyLink chalk "" true.
Proof.
  intros chalk st. subst st.
  repeat split; reflexivity.
Qed.


(* ------------------------------------------------------------------ *)
(** * Properties: message text and summary line *)
(* ------------------------------------------------------------------ *)

Lemma replace_trailing_period_app (s : string) :
  Js.replace_trailing_period (s ++ ".") = s.
Proof.
  induction s as [| c s IH].
  - reflexivity.
  - destruct s as [| d s].
    + reflexivity.
    + change (String c (Js.replace_trailing_period (String d s ++ "."))
              = String c (String d s)).
      rewrite IH. reflexivity.
Qed.

Lemma endsWithPeriod_app (s : string) : endsWithPeriod (s ++ ".") = true.
Proof.
  induction s as [| c s IH].
  - reflexivity.
  - destruct s as [| d s].
    + reflexivity.
    + exact IH.
Qed.

Lemma replace_trailing_period_keeps (s : string) :
  endsWithPeriod s = false -> Js.replace_trailing_period s = s.
Proof.
  induction s as [| c s IH]; intros H.
  - reflexivity.
  - destruct s as [| d s].
    + cbn in *. rewrite H. reflexivity.
    + change (String c (Js.replace_trailing_period (String d s))
              = String c (String d s)).
      rewrite IH; [reflexivity | exact H].
Qed.

Lemma replace_trailing_period_strips (s : string) :
  endsWithPeriod s = true -> s = Js.replace_trailing_period s ++ ".".
Proof.
  induction s as [| c s IH]; intros H.
  - discriminate.
  - destruct s as [| d s].
    + cbn in *. rewrite H. apply Ascii.eqb_eq in H. subst c. reflexivity.
    + change (String c (String d s)
              = String c (Js.replace_trailing_period (String d s) ++ ".")).
      rewrite <- IH; [reflexivity | exact H].
Qed.

(** C7. The message shown in a row is the message of the diagnostic with
    one trailing period removed when it ends with a period, and unchanged
    otherwise; periods inside the text stay. *)
Theorem message_loses_one_trailing_period :
  forall chalk (e : Entry) (s : string),
    nth 2 (buildRow chalk e) ""
    = (if isErrorEntry e
       then chalk [bold; red] (Js.replace_trailing_period (message e))
       else chalk [bold; yellow] (Js.replace_trailing_period (message e)))
    /\ Js.replace_trailing_period (s ++ ".") = s
    /\ endsWithPeriod (s ++ ".") = true
    /\ (endsWithPeriod s = true -> s = Js.replace_trailing_period s ++ ".")
    /\ (endsWithPeriod s = false -> Js.replace_trailing_period s = s)
    /\ Js.replace_trailing_period "Missing semicolon." = "Missing semicolon"
    /\ Js.replace_trailing_period "Line 1. Line 2." = "Line 1. Line 2".
Proof.
  intros chalk e s.
  split; [reflexivity |].
  split; [apply replace_trailing_period_app |].
  split; [apply endsWithPeriod_app |].
  split; [apply replace_trailing_period_strips |].
  split; [apply replace_trailing_period_keeps |].
  split; reflexivity.
Qed.

Lemma message_loses_one_trailing_period_witness :
  Js.replace_trailing_period "Unexpected var" = "Unexpected var"
  /\ "Two dots.." = Js.replace_trailing_period "Two dots.." ++ ".".
Proof.
  split.
  - apply (message_loses_one_trailing_period plainChalk semiEntry "Unexpected var").
    reflexivity.
  - apply (message_loses_one_trailing_period plainChalk semiEntry "Two dots..").
    reflexivity.
Defined.

Lemma pluralize_ending (word : string) (count : nat) :
  pluralize word count = word ++ pluralEnding count.
Proof.
  unfold pluralize, pluralEnding.
  destruct count as [| [| n]]; cbn.
  - reflexivity.
  - induction word as [| c w IH]; cbn; [reflexivity | rewrite <- IH; reflexivity].
  - reflexivity.
Qed.

Lemma summaryLine_form (total errs warns : nat) :
  summaryLine total errs warns
  = "✘ " ++ Js.string_of_nat total ++ " problem" ++ pluralEnding total
    ++ " (" ++ Js.string_of_nat errs ++ " error" ++ pluralEnding errs
    ++ ", " ++ Js.string_of_nat warns ++ " warning" ++ pluralEnding warns
    ++ ")" ++ Js.LF.
Proof.
  unfold summaryLine, Js.join. cbn [fold_right].
  rewrite !pluralize_ending. reflexivity.
Qed.

(** C8. A report that is not empty carries, after the main table, the
    summary line: the total, the word "problem", and in parentheses the
    error and warning counts with their words; each word ends in "s"
    exactly when its count is not 1. *)
Theorem summary_line_pluralized :
  forall chalk table resolve localeCompare cfg results,
    let entries :=
      sortEntries localeCompare cfg
        (flatten resolve cfg (match results with Some rs => rs | None => [] end)) in
    let st := buildRows chalk cfg entries in
    let total := List.length entries in
    formatter chalk table resolve localeCompare cfg results <> "" ->
    formatter chalk table resolve localeCompare cfg results
    = (Js.LF ++ mainTable table st ++ Js.LF ++ Js.LF)
      ++ chalk [summaryColor st; bold]
           ("✘ " ++ Js.string_of_nat total ++ " problem" ++ pluralEnding total
            ++ " (" ++ Js.string_of_nat (errors st) ++ " error"
            ++ pluralEnding (errors st)
            ++ ", " ++ Js.string_of_nat (warnings st) ++ " warning"
            ++ pluralEnding (warnings st)
            ++ ")" ++ Js.LF)
      ++ (if Nat.ltb 0 (errors st)
          then printSummary chalk table (errorsHash st) "Errors" red else "")
      ++ (if Nat.ltb 0 (warnings st)
          then printSummary chalk table (warningsHash st) "Warnings" yellow
          else "")
      ++ separator
    /\ pluralEnding 1 = "" /\ pluralEnding 0 = "s"
    /\ (forall n, pluralEnding (S (S n)) = "s")
    /\ summaryLine 1 1 0 = "✘ 1 problem (1 error, 0 warnings)" ++ Js.LF
    /\ summaryLine 2 0 2 = "✘ 2 problems (0 errors, 2 warnings)" ++ Js.LF.
Proof.
  intros chalk table resolve localeCompare cfg results entries st total Hne.
  split; [| repeat split; reflexivity].
  revert Hne. unfold formatter.
  fold entries. fold st. fold total.
  destruct (Nat.ltb 0 total).
  - intros _. unfold reportTail. rewrite summaryLine_form. reflexivity.
  - intros H. contradiction H. reflexivity.
Qed.

Lemma summary_line_pluralized_witness :
  formatter plainChalk plainTable resolveInWork codeCompare defaultConfig
    (Some [ mkFileResult "a.js" (Some [semiError]) ])
  = (Js.LF
     ++ mainTable plainTable (buildRows plainChalk defaultConfig [semiEntry])
     ++ Js.LF ++ Js.LF)
    ++ ("✘ 1 problem (1 error, 0 warnings)" ++ Js.LF)
    ++ printSummary plainChalk plainTable [("semi", 1%nat)] "Errors" red
    ++ separator.
Proof.
  apply (summary_line_pluralized plainChalk plainTable resolveInWork
           codeCompare defaultConfig
           (Some [ mkFileResult "a.js" (Some [semiError]) ])).
  vm_compute. discriminate.
Defined.


(* ------------------------------------------------------------------ *)
(** * Properties: the pointer line *)
(* ------------------------------------------------------------------ *)

Lemma arrowLoop_char (src : string) (i : nat) :
  (if String.eqb (Js.charAt src i) (String Js.TAB "") then Js.TAB else " "%char)
  = pointerChar src i.
Proof.
  unfold Js.charAt, pointerChar.
  destruct (String.get i src) as [c |]; [| reflexivity].
  cbn [String.eqb]. destruct (Ascii.eqb c Js.TAB); reflexivity.
Qed.

Lemma arrowLoop_length (src : string) (n : nat) :
  forall i, String.length (arrowLoop src i n) = n.
Proof.
  induction n as [| n IH]; intros i; cbn [arrowLoop String.length].
  - reflexivity.
  - rewrite IH. reflexivity.
Qed.

Lemma arrowLoop_get (src : string) (n : nat) :
  forall i j, (j < n)%nat ->
    String.get j (arrowLoop src i n) = Some (pointerChar src (i + j)).
Proof.
  induction n as [| n IH]; intros i j Hj; [lia |].
  cbn [arrowLoop]. rewrite arrowLoop_char.
  destruct j as [| j]; cbn [String.get].
  - rewrite Nat.add_0_r. reflexivity.
  - rewrite IH by lia. f_equal. f_equal. lia.
Qed.

Lemma hasSource_false_iff (e : Entry) :
  hasSource e = false
  <-> source e = None
      \/ exists s, source e = Some s /\ (1000 <= String.length s)%nat.
Proof.
  unfold hasSource. destruct (source e) as [s |].
  - rewrite Nat.ltb_ge. split.
    + intros H. right. exists s. split; [reflexivity | exact H].
    + intros [H | (s' & [= <-] & H)]; [discriminate | exact H].
  - split; [left |]; reflexivity.
Qed.

(** C5, amended.  For a diagnostic whose source is present and shorter
    than 1000 characters, the pointer line is a run of exactly [column]
    characters followed by a caret; the character at each index is a tab
    when the source has a tab at that index and a space otherwise.  So the
    source "  const x = 1" with column 8 gives eight spaces and the caret.
    When the source is absent or has 1000 characters or more, the pointer
    is empty and nothing follows the position in the location cell. *)
Theorem pointer_line_follows_source :
  forall chalk (e : Entry) (s : string) (c : Z),
    (source e = Some s -> (String.length s < 1000)%nat ->
     column e = Some c -> 0 <= c ->
     exists p,
       arrow e = p ++ "^"
       /\ Z.of_nat (String.length p) = c
       /\ (forall i, (i < String.length p)%nat ->
             String.get i p = Some (pointerChar s i))
       /\ locationCell chalk e
          = "$MARKER$  " ++ chalk [bold] (filePath e) ++ " : "
            ++ chalk [bold; green]
                 (Js.string_of_Z (Js.num_or (line e) 0) ++ ":"
                  ++ Js.string_of_Z (Js.num_or (column e) 0))
            ++ "$MARKER$  " ++ s ++ "$MARKER$  " ++ p ++ "^")
    /\ (source e = None
        \/ (source e = Some s /\ (1000 <= String.length s)%nat) ->
        arrow e = ""
        /\ locationCell chalk e
           = "$MARKER$  " ++ chalk [bold] (filePath e) ++ " : "
             ++ chalk [bold; green]
                  (Js.string_of_Z (Js.num_or (line e) 0) ++ ":"
                   ++ Js.string_of_Z (Js.num_or (column e) 0))
             ++ "$MARKER$  " ++ "")
    /\ arrow semiEntry = "        ^".
Proof.
  intros chalk e s c.
  split; [| split; [| reflexivity]].
  - intros Hs Hlen Hc Hpos.
    assert (Hhas : hasSource e = true).
    { unfold hasSource. rewrite Hs. apply Nat.ltb_lt. exact Hlen. }
    exists (arrowLoop s O (Z.to_nat c)).
    rewrite arrowLoop_length.
    split; [| split; [| split]].
    + unfold arrow, arrowSteps. rewrite Hs, Hhas, Hc. reflexivity.
    + apply Z2Nat.id. exact Hpos.
    + intros i Hi. rewrite arrowLoop_get by exact Hi. reflexivity.
    + unfold locationCell, arrow, arrowSteps.
      rewrite Hhas, Hs, Hc. reflexivity.
  - intros H.
    assert (Hhas : hasSource e = false).
    { apply hasSource_false_iff.
      destruct H as [H | H]; [left; exact H | right; exists s; exact H]. }
    split.
    + unfold arrow. rewrite Hhas. destruct (source e); reflexivity.
    + unfold locationCell. rewrite Hhas. reflexivity.
Qed.

Lemma pointer_line_follows_source_witness :
  exists p,
    arrow semiEntry = p ++ "^"
    /\ Z.of_nat (String.length p) = 8
    /\ (forall i, (i < String.length p)%nat ->
          String.get i p = Some (pointerChar "  const x = 1" i))
    /\ locationCell plainChalk semiEntry
       = "$MARKER$  " ++ "a.js" ++ " : " ++ "3:8"
         ++ "$MARKER$  " ++ "  const x = 1" ++ "$MARKER$  " ++ p ++ "^".
Proof.
  apply (pointer_line_follows_source plainChalk semiEntry "  const x = 1" 8).
  - reflexivity.
  - vm_compute. lia.
  - reflexivity.
  - lia.
Defined.

(** A tab of the source is repeated in the pointer line: with a tab at
    index 0 and column 3 the pointer is the tab, two spaces and the caret. *)
Example pointer_reproduces_tab :
  arrow tabEntry = String Js.TAB "  ^".
Proof.
  reflexivity.
Qed.

(** C5 as stated fails on its own example: for the source "  const x = 1"
    and column 8 the loop runs eight times, so the caret follows eight
    spaces, not seven. *)
Lemma pointer_at_column_8_has_eight_spaces :
  source semiEntry = Some "  const x = 1"
  /\ column semiEntry = Some 8
  /\ arrow semiEntry = "        ^"
  /\ arrow semiEntry <> "       ^".
Proof.
  split; [reflexivity |]. split; [reflexivity |]. split; [reflexivity |].
  intros H. vm_compute in H. discriminate H.
Qed.


(* ------------------------------------------------------------------ *)
(** * Properties: consistent comparisons *)
(* ------------------------------------------------------------------ *)

Lemma Consistent_refl {A : Type} (c : A -> A -> comparison) :
  Consistent c -> forall a, c a a = Eq.
Proof.
  intros [Hanti _] a. specialize (Hanti a a).
  destruct (c a a); cbn in Hanti; congruence.
Qed.

(** In a consistent comparison, "equal" on either side preserves the
    verdict, and "before" is transitive. *)
Lemma Consistent_strict {A : Type} (c : A -> A -> comparison) :
  Consistent c ->
  forall a b d,
    c a b <> Gt -> c b d <> Gt ->
    (c a b = Lt \/ c b d = Lt) -> c a d = Lt.
Proof.
  intros [Hanti Htrans] a b d Hab Hbd Hlt.
  destruct (c a d) eqn:Had.
  - exfalso.
    assert (Hda : c d a <> Gt) by (rewrite Hanti, Had; discriminate).
    destruct Hlt as [Hlt | Hlt].
    + pose proof (Htrans b d a Hbd Hda) as Hba.
      rewrite Hanti, Hlt in Hba. apply Hba. reflexivity.
    + pose proof (Htrans d a b Hda Hab) as Hdb.
      rewrite Hanti, Hlt in Hdb. apply Hdb. reflexivity.
  - reflexivity.
  - exfalso. exact (Htrans a b d Hab Hbd Had).
Qed.

Lemma Consistent_eq_trans {A : Type} (c : A -> A -> comparison) :
  Consistent c ->
  forall a b d, c a b = Eq -> c b d = Eq -> c a d = Eq.
Proof.
  intros Hc a b d Hab Hbd.
  destruct Hc as [Hanti Htrans].
  destruct (c a d) eqn:Had.
  - reflexivity.
  - exfalso.
    assert (Hda : c d a = Gt) by (rewrite Hanti, Had; reflexivity).
    assert (Hba : c b a <> Gt) by (rewrite Hanti, Hab; discriminate).
    assert (Hdb : c d b <> Gt) by (rewrite Hanti, Hbd; discriminate).
    exact (Htrans d b a Hdb Hba Hda).
  - exfalso. apply (Htrans a b d); congruence.
Qed.

Lemma Consistent_lexThen {A : Type} (c1 c2 : A -> A -> comparison) :
  Consistent c1 -> Consistent c2 ->
  Consistent (fun a b => lexThen (c1 a b) (c2 a b)).
Proof.
  intros H1 H2. split.
  - intros a b. destruct H1 as [A1 _], H2 as [A2 _].
    rewrite (A1 a b), (A2 a b). unfold lexThen.
    destruct (c1 a b); reflexivity.
  - intros a b d Hab Hbd.
    destruct (c1 a b) eqn:E1; destruct (c1 b d) eqn:E2;
      unfold lexThen in Hab, Hbd; rewrite ?E1, ?E2 in Hab, Hbd;
      try congruence.
    + unfold lexThen. rewrite (Consistent_eq_trans c1 H1 a b d E1 E2).
      destruct H2 as [_ T2]. exact (T2 a b d Hab Hbd).
    + unfold lexThen.
      rewrite (Consistent_strict c1 H1 a b d); try congruence.
      right; exact E2.
    + unfold lexThen.
      rewrite (Consistent_strict c1 H1 a b d); try congruence.
      left; exact E1.
    + unfold lexThen.
      rewrite (Consistent_strict c1 H1 a b d); try congruence.
      left; exact E1.
Qed.

Lemma Consistent_on {A B : Type} (f : A -> B) (c : B -> B -> comparison) :
  Consistent c -> Consistent (fun a b => c (f a) (f b)).
Proof.
  intros [Hanti Htrans]. split.
  - intros a b. apply Hanti.
  - intros a b d. apply Htrans.
Qed.

Lemma Consistent_Eq {A : Type} : Consistent (fun _ _ : A => Eq).
Proof.
  split; intros; [reflexivity | discriminate].
Qed.

Lemma Consistent_Z : Consistent Z.compare.
Proof.
  split.
  - intros a b. apply Z.compare_antisym.
  - intros a b d. rewrite !Z.compare_le_iff. lia.
Qed.

Lemma Consistent_string : Consistent String.compare.
Proof.
  split.
  - intros a b. apply String.compare_antisym.
  - intros a b d Hab Hbd.
    destruct (String.compare a b) eqn:E1; [| | congruence].
    + apply String.compare_eq_iff in E1. subst b. exact Hbd.
    + destruct (String.compare b d) eqn:E2; [| | congruence].
      * apply String.compare_eq_iff in E2. subst d. rewrite E1. discriminate.
      * apply String_as_OT.cmp_lt in E1, E2.
        pose proof (String_as_OT.lt_trans _ _ _ E1 E2) as H.
        apply String_as_OT.cmp_lt in H.
        unfold String_as_OT.cmp in H. rewrite H. discriminate.
Qed.

Lemma Consistent_sign (cmp : string -> string -> Z) :
  consistentComparator cmp -> Consistent (fun a b => cmp a b ?= 0).
Proof.
  intros [Hanti Htrans]. split.
  - intros a b. specialize (Hanti a b).
    destruct (Z.compare_spec (cmp a b) 0) as [E | E | E];
      destruct (Z.compare_spec (cmp b a) 0) as [F | F | F];
      cbn; try reflexivity; exfalso;
      pose proof (Z.sgn_spec (cmp a b)); pose proof (Z.sgn_spec (cmp b a));
      lia.
  - intros a b d. rewrite !Z.compare_le_iff. apply Htrans.
Qed.

(** The five-key order of the specification is a consistent comparison. *)
Lemma Consistent_specCompare (localeCompare : string -> string -> Z)
  (group : bool) :
  consistentComparator localeCompare ->
  Consistent (specCompare localeCompare group).
Proof.
  intros Hlc. unfold specCompare.
  apply (Consistent_lexThen (fun a b => severity a ?= severity b)).
  { apply (Consistent_on severity), Consistent_Z. }
  apply (Consistent_lexThen
           (fun a b =>
              if group
              then String.compare (Js.str_or_empty (ruleId a))
                     (Js.str_or_empty (ruleId b))
              else Eq)).
  { destruct group.
    - apply (Consistent_on (fun e => Js.str_or_empty (ruleId e))),
        Consistent_string.
    - apply Consistent_Eq. }
  apply (Consistent_lexThen
           (fun a b => localeCompare (filePath a) (filePath b) ?= 0)).
  { apply (Consistent_on filePath (fun x y => localeCompare x y ?= 0)),
      Consistent_sign, Hlc. }
  apply (Consistent_lexThen
           (fun a b =>
              match line a with Some x => x | None => 0 end
              ?= match line b with Some x => x | None => 0 end)).
  { apply (Consistent_on (fun e => match line e with Some x => x | None => 0 end)),
      Consistent_Z. }
  apply (Consistent_on (fun e => match column e with Some x => x | None => 0 end)),
    Consistent_Z.
Qed.

(** The comparison of strings by character code is a consistent
    comparator. *)
Lemma codeCompare_consistent : consistentComparator codeCompare.
Proof.
  destruct Consistent_string as [Hanti Htrans].
  split.
  - intros a b. unfold codeCompare. rewrite (Hanti a b).
    destruct (String.compare a b); reflexivity.
  - intros a b d. unfold codeCompare.
    specialize (Htrans a b d).
    destruct (String.compare a b); destruct (String.compare b d);
      destruct (String.compare a d); intros; try lia;
      exfalso; apply Htrans; congruence.
Qed.


(* ------------------------------------------------------------------ *)
(** * Properties: the sort *)
(* ------------------------------------------------------------------ *)

Section SortFacts.

Context {A : Type}.
Variable cmp : A -> A -> Z.
Variable ord : A -> A -> comparison.
Variable P : A -> Prop.

Hypothesis ord_consistent : Consistent ord.
Hypothesis cmp_agrees :
  forall a b, P a -> P b -> (cmp a b ?= 0) = ord a b.

Lemma insert_Permutation (x : A) (l : list A) :
  Permutation (x :: l) (Js.insert cmp x l).
Proof.
  induction l as [| y l IH]; cbn.
  - apply Permutation_refl.
  - destruct (cmp x y <=? 0).
    + apply Permutation_refl.
    + eapply perm_trans; [apply perm_swap |].
      apply perm_skip. exact IH.
Qed.

Lemma sort_Permutation (l : list A) : Permutation l (Js.sort cmp l).
Proof.
  induction l as [| x l IH]; cbn.
  - apply perm_nil.
  - eapply perm_trans; [apply perm_skip, IH |].
    apply insert_Permutation.
Qed.

Lemma sort_Forall (Q : A -> Prop) (l : list A) :
  Forall Q l -> Forall Q (Js.sort cmp l).
Proof.
  intros H. eapply Permutation_Forall; [apply sort_Permutation | exact H].
Qed.

Lemma insert_sorted (x : A) (l : list A) :
  P x -> Forall P l ->
  StronglySorted (fun a b => ord a b <> Gt) l ->
  StronglySorted (fun a b => ord a b <> Gt) (Js.insert cmp x l).
Proof.
  intros Px Pl Hs. induction Hs as [| y l Hs IH Hy]; cbn.
  - constructor; constructor.
  - inversion Pl as [| ? ? Py Pl']; subst.
    destruct (cmp x y <=? 0) eqn:E.
    + assert (Hxy : ord x y <> Gt).
      { rewrite <- (cmp_agrees x y Px Py). apply Z.compare_le_iff.
        apply Z.leb_le. exact E. }
      constructor; [constructor; assumption |].
      constructor; [exact Hxy |].
      eapply Forall_impl; [| exact Hy].
      intros z Hyz. destruct ord_consistent as [_ Ht].
      exact (Ht x y z Hxy Hyz).
    + assert (Hyx : ord y x <> Gt).
      { destruct ord_consistent as [Ha _].
        rewrite (Ha x y), <- (cmp_agrees x y Px Py).
        apply Z.leb_gt in E. rewrite (proj2 (Z.compare_gt_iff _ _)) by lia.
        discriminate. }
      constructor; [apply IH; exact Pl' |].
      eapply Permutation_Forall; [apply insert_Permutation |].
      constructor; assumption.
Qed.

Lemma sort_sorted (l : list A) :
  Forall P l -> StronglySorted (fun a b => ord a b <> Gt) (Js.sort cmp l).
Proof.
  induction 1 as [| x l Px Pl IH]; cbn.
  - constructor.
  - apply insert_sorted; [exact Px | apply sort_Forall; exact Pl | exact IH].
Qed.

(** Inserting does not reorder the elements of one class of equal keys. *)
Lemma insert_stable (k x : A) (l : list A) :
  P x -> Forall P l ->
  filter (fun e => match ord k e with Eq => true | _ => false end)
    (Js.insert cmp x l)
  = filter (fun e => match ord k e with Eq => true | _ => false end) (x :: l).
Proof.
  intros Px Pl. induction Pl as [| y l Py Pl IH]; cbn.
  - reflexivity.
  - destruct (cmp x y <=? 0) eqn:E.
    + reflexivity.
    + cbn [filter]. rewrite IH. cbn [filter].
      destruct (ord k x) eqn:Ex; try reflexivity.
      destruct (ord k y) eqn:Ey; try reflexivity.
      exfalso.
      destruct ord_consistent as [Ha Ht].
      assert (Hxk : ord x k <> Gt) by (rewrite Ha, Ex; discriminate).
      assert (Hky : ord k y <> Gt) by (rewrite Ey; discriminate).
      apply (Ht x k y Hxk Hky).
      rewrite <- (cmp_agrees x y Px Py).
      apply Z.leb_gt in E. apply Z.compare_gt_iff. lia.
Qed.

Lemma sort_stable (k : A) (l : list A) :
  Forall P l ->
  filter (fun e => match ord k e with Eq => true | _ => false end)
    (Js.sort cmp l)
  = filter (fun e => match ord k e with Eq => true | _ => false end) l.
Proof.
  induction 1 as [| x l Px Pl IH]; cbn [Js.sort fold_right].
  - reflexivity.
  - change (fold_right (Js.insert cmp) [] l) with (Js.sort cmp l).
    rewrite insert_stable; [| exact Px | apply sort_Forall; exact Pl].
    cbn [filter]. rewrite IH. reflexivity.
Qed.

End SortFacts.

Section EntryOrder.

Variable localeCompare : string -> string -> Z.
Variable cfg : Config.

Lemma str_gt_compare (x y : string) :
  Js.str_gt (Some x) (Some y)
  = match String.compare x y with Gt => true | _ => false end.
Proof.
  unfold Js.str_gt, String.ltb. rewrite (String.compare_antisym y x).
  destruct (String.compare x y); reflexivity.
Qed.

Lemma str_lt_compare (x y : string) :
  Js.str_lt (Some x) (Some y)
  = match String.compare x y with Lt => true | _ => false end.
Proof.
  unfold Js.str_lt, Js.str_gt, String.ltb. reflexivity.
Qed.

(** On entries that carry their keys, the sign of the comparator is the
    five-key order. *)
Lemma compareEntries_specCompare (a b : Entry) :
  keyed (groupByIssue cfg) a -> keyed (groupByIssue cfg) b ->
  (compareEntries localeCompare cfg a b ?= 0)
  = specCompare localeCompare (groupByIssue cfg) a b.
Proof.
  intros (Hla & Hca & Hra) (Hlb & Hcb & Hrb).
  unfold compareEntries, specCompare.
  destruct (line a) as [la |]; [| congruence].
  destruct (line b) as [lb |]; [| congruence].
  destruct (column a) as [ca |]; [| congruence].
  destruct (column b) as [cb |]; [| congruence].
  rewrite (Z.ltb_compare (severity b) (severity a)),
    (Z.ltb_compare (severity a) (severity b)),
    (Z.compare_antisym (severity a) (severity b)).
  destruct (severity a ?= severity b); cbn [CompOpp lexThen]; try reflexivity.
  assert (Htail :
    ((let pathSort := localeCompare (filePath a) (filePath b) in
      if negb (pathSort =? 0) then pathSort
      else if Js.num_gt (Some la) (Some lb) then 1
      else if Js.num_lt (Some la) (Some lb) then -1
      else if Js.num_gt (Some ca) (Some cb) then 1
      else if Js.num_lt (Some ca) (Some cb) then -1
      else 0) ?= 0)
    = lexThen (localeCompare (filePath a) (filePath b) ?= 0)
        (lexThen (la ?= lb) (ca ?= cb))).
  { cbv zeta. unfold Js.num_lt, Js.num_gt.
    destruct (Z.eqb_spec (localeCompare (filePath a) (filePath b)) 0) as [E | E];
      cbn [negb].
    - rewrite E. cbn [Z.compare lexThen].
      rewrite (Z.ltb_compare lb la), (Z.ltb_compare la lb),
        (Z.compare_antisym la lb).
      destruct (la ?= lb); cbn [CompOpp lexThen]; try reflexivity.
      rewrite (Z.ltb_compare cb ca), (Z.ltb_compare ca cb),
        (Z.compare_antisym ca cb).
      destruct (ca ?= cb); reflexivity.
    - destruct (Z.compare_spec (localeCompare (filePath a) (filePath b)) 0);
        [contradiction | reflexivity | reflexivity]. }
  destruct (groupByIssue cfg); cbn [andb].
  - destruct (ruleId a) as [ra |]; [| exfalso; apply Hra; reflexivity].
    destruct (ruleId b) as [rb |]; [| exfalso; apply Hrb; reflexivity].
    rewrite str_gt_compare, str_lt_compare. cbn [Js.str_or_empty].
    destruct (String.compare ra rb); cbn [lexThen]; try reflexivity.
    exact Htail.
  - cbn [lexThen]. exact Htail.
Qed.

End EntryOrder.

Lemma StronglySorted_filter {A : Type} (R : A -> A -> Prop)
  (f : A -> bool) (l : list A) :
  StronglySorted R l -> StronglySorted R (filter f l).
Proof.
  induction 1 as [| x l Hs IH Hx]; cbn.
  - constructor.
  - destruct (f x); [| exact IH].
    constructor; [exact IH |].
    apply Forall_forall. intros y Hy. apply filter_In in Hy.
    destruct Hy as [Hy _]. revert y Hy. apply Forall_forall. exact Hx.
Qed.

(** C4, amended.  When every flattened diagnostic carries a line and a
    column and, if grouping by category is on, a rule identifier, the
    sorted sequence holds the same diagnostics ordered by the five keys:
    severity, then (only when grouping) the rule identifier, then the file
    path by the locale-aware comparison, then line, then column, each
    ascending.  Diagnostics equal on all five keys keep the relative order
    they had in the input, so their order in the report is the order in
    which the engine supplied them.  The rows of the main table are the
    surviving diagnostics in this order. *)
Theorem entries_sorted_by_five_keys :
  forall chalk resolve localeCompare cfg results,
    consistentComparator localeCompare ->
    Forall (keyed (groupByIssue cfg)) (flatten resolve cfg results) ->
    Permutation (flatten resolve cfg results)
      (sortEntries localeCompare cfg (flatten resolve cfg results))
    /\ StronglySorted (specBefore localeCompare (groupByIssue cfg))
         (sortEntries localeCompare cfg (flatten resolve cfg results))
    /\ (forall k,
          filter (sameKeys localeCompare (groupByIssue cfg) k)
            (sortEntries localeCompare cfg (flatten resolve cfg results))
          = filter (sameKeys localeCompare (groupByIssue cfg) k)
              (flatten resolve cfg results))
    /\ seq (buildRows chalk cfg
              (sortEntries localeCompare cfg (flatten resolve cfg results)))
       = map (buildRow chalk)
           (survivors cfg
              (sortEntries localeCompare cfg (flatten resolve cfg results)))
    /\ StronglySorted (specBefore localeCompare (groupByIssue cfg))
         (survivors cfg
            (sortEntries localeCompare cfg (flatten resolve cfg results))).
Proof.
  intros chalk resolve localeCompare cfg results Hlc Hkeyed.
  pose proof (Consistent_specCompare localeCompare (groupByIssue cfg) Hlc)
    as Hord.
  pose proof (compareEntries_specCompare localeCompare cfg) as Hagree.
  assert (Hsorted :
    StronglySorted (specBefore localeCompare (groupByIssue cfg))
      (sortEntries localeCompare cfg (flatten resolve cfg results))).
  { exact (sort_sorted (compareEntries localeCompare cfg)
             (specCompare localeCompare (groupByIssue cfg))
             (keyed (groupByIssue cfg)) Hord Hagree _ Hkeyed). }
  split; [| split; [| split; [| split]]].
  - apply sort_Permutation.
  - exact Hsorted.
  - intros k.
    exact (sort_stable (compareEntries localeCompare cfg)
             (specCompare localeCompare (groupByIssue cfg))
             (keyed (groupByIssue cfg)) Hord Hagree k _ Hkeyed).
  - unfold buildRows. rewrite fold_rowStep_seq. reflexivity.
  - apply StronglySorted_filter. exact Hsorted.
Qed.

Lemma entries_sorted_by_five_keys_witness :
  StronglySorted (specBefore codeCompare true)
    (sortEntries codeCompare groupingConfig
       (flatten resolveInWork groupingConfig
          [ mkFileResult "b.js" (Some [semiError; unusedWarning]);
            mkFileResult "a.js" (Some [semiError]) ])).
Proof.
  apply (entries_sorted_by_five_keys plainChalk resolveInWork codeCompare
           groupingConfig
           [ mkFileResult "b.js" (Some [semiError; unusedWarning]);
             mkFileResult "a.js" (Some [semiError]) ]).
  - exact codeCompare_consistent.
  - repeat constructor; cbn; discriminate.
Defined.

(** C4 as stated fails in three ways.  With grouping on, a diagnostic
    without a rule identifier ties with every rule identifier instead of
    sorting first: the "semi" error of [a.js] stays before the parse error
    of [b.js].  Two diagnostics equal on all five keys come out in the
    order they went in, so the row order does depend on that order.  And a
    diagnostic without a line ties with every line: between a diagnostic of
    line 5 and one of line 1 it keeps both in place. *)
Lemma sort_breaks_stated_order :
  (ruleId parseEntryB = None
   /\ sortEntries codeCompare groupingConfig [semiEntry; parseEntryB]
      = [semiEntry; parseEntryB]
   /\ ~ StronglySorted (specBefore codeCompare true)
          (sortEntries codeCompare groupingConfig [semiEntry; parseEntryB]))
  /\ (sameKeys codeCompare false firstDuplicate secondDuplicate = true
      /\ sortEntries codeCompare defaultConfig [firstDuplicate; secondDuplicate]
         = [firstDuplicate; secondDuplicate]
      /\ sortEntries codeCompare defaultConfig [secondDuplicate; firstDuplicate]
         = [secondDuplicate; firstDuplicate]
      /\ map (buildRow plainChalk)
           (sortEntries codeCompare defaultConfig
              [firstDuplicate; secondDuplicate])
         <> map (buildRow plainChalk)
              (sortEntries codeCompare defaultConfig
                 [secondDuplicate; firstDuplicate]))
  /\ (sortEntries codeCompare defaultConfig
        [atLine (Some 5); atLine None; atLine (Some 1)]
      = [atLine (Some 5); atLine None; atLine (Some 1)]).
Proof.
  split; [| split].
  - split; [reflexivity |]. split; [reflexivity |].
    intros H. vm_compute in H.
    inversion H as [| ? ? _ Hall]; subst.
    inversion Hall as [| ? ? Hbefore _]; subst.
    apply Hbefore. reflexivity.
  - split; [reflexivity |]. split; [reflexivity |]. split; [reflexivity |].
    intros H. vm_compute in H. discriminate H.
  - reflexivity.
Qed.


(* ------------------------------------------------------------------ *)
(** * Properties: flattening *)
(* ------------------------------------------------------------------ *)

Section FlattenFacts.

Variable resolve : string -> string.
Variable cfg : Config.

Lemma fold_flattenStep_flat_map (results : list FileResult) :
  forall acc,
    fold_left (flattenStep resolve cfg) results acc
    = (acc
       ++ flat_map
            (fun r =>
               map (extend (entryPath resolve cfg r))
                 (match r_messages r with Some ms => ms | None => [] end))
            results)%list.
Proof.
  induction results as [| r rs IH]; intros acc; cbn.
  - symmetry; apply app_nil_r.
  - rewrite IH. unfold flattenStep. rewrite <- app_assoc. reflexivity.
Qed.

(** Flattening keeps the results and, within each, the messages in order,
    and drops none. *)
Lemma flatten_flat_map (results : list FileResult) :
  flatten resolve cfg results
  = flat_map
      (fun r =>
         map (extend (entryPath resolve cfg r))
           (match r_messages r with Some ms => ms | None => [] end))
      results.
Proof.
  unfold flatten. rewrite fold_flattenStep_flat_map. reflexivity.
Qed.

(** The fields of a flattened entry: the path of its result, resolved once
    when absolute paths are asked for, and the fields of its message. *)
Lemma flatten_entry_fields (results : list FileResult) (e : Entry) :
  In e (flatten resolve cfg results) ->
  exists r ms m,
    In r results /\ r_messages r = Some ms /\ In m ms
    /\ filePath e
       = (if absolutePathsToFile cfg
          then resolve (r_filePath r) else r_filePath r)
    /\ severity e = m_severity m /\ fatal e = m_fatal m
    /\ ruleId e = m_ruleId m /\ line e = m_line m
    /\ column e = m_column m /\ message e = m_message m
    /\ source e = m_source m.
Proof.
  rewrite flatten_flat_map, in_flat_map.
  intros (r & Hr & He). apply in_map_iff in He.
  destruct He as (m & <- & Hm).
  destruct (r_messages r) as [ms |] eqn:E; [| contradiction].
  exists r, ms, m. repeat split; assumption.
Qed.

End FlattenFacts.

Module HeapFacts.

Import Heap.
Local Open Scope list_scope.

Lemma read_old (h ext : heap) (l : loc) (o : object) :
  read h l = Some o -> read (h ++ ext) l = Some o.
Proof.
  unfold read. intros H. rewrite nth_error_app1; [exact H |].
  apply nth_error_Some. congruence.
Qed.

Lemma read_valid (h : heap) (l : loc) :
  (l < List.length h)%nat -> exists o, read h l = Some o.
Proof.
  unfold read. intros H. apply nth_error_Some in H.
  destruct (nth_error h l) as [o |]; [exists o; reflexivity | contradiction].
Qed.

Lemma read_new (h news : heap) (i : nat) :
  read (h ++ news) (List.length h + i)%nat = nth_error news i.
Proof.
  unfold read. rewrite nth_error_app2 by lia. f_equal. lia.
Qed.

Lemma write_new (h : heap) (o0 o : object) :
  write (h ++ [o0]) (List.length h) o = (h ++ [o])%list.
Proof.
  induction h as [| x h IH]; cbn.
  - reflexivity.
  - rewrite IH. reflexivity.
Qed.

(** Writing changes no location but its own. *)
Lemma read_write_other (h : heap) (l l' : loc) (o : object) :
  l' <> l -> read (write h l o) l' = read h l'.
Proof.
  unfold read. revert l l'.
  induction h as [| x h IH]; intros l l' Hne; cbn.
  - reflexivity.
  - destruct l as [| l]; destruct l' as [| l']; cbn; try reflexivity.
    + contradiction.
    + apply IH. congruence.
Qed.

Lemma readAll_old (h ext : heap) (ms : list loc) :
  Forall (fun m => (m < List.length h)%nat) ms ->
  readAll (h ++ ext) ms = readAll h ms.
Proof.
  unfold readAll. induction 1 as [| m ms Hm _ IH]; cbn.
  - reflexivity.
  - destruct (read_valid h m Hm) as [o Ho].
    rewrite (read_old h ext m o Ho), Ho, IH. reflexivity.
Qed.

Lemma readAll_length (h : heap) (ms : list loc) :
  Forall (fun m => (m < List.length h)%nat) ms ->
  List.length (readAll h ms) = List.length ms.
Proof.
  unfold readAll. induction 1 as [| m ms Hm _ IH]; cbn.
  - reflexivity.
  - destruct (read_valid h m Hm) as [o Ho]. rewrite Ho. cbn.
    rewrite IH. reflexivity.
Qed.

(** Apart from the file path, a copy has the properties of its message. *)
Lemma copyOf_other (p : value) (m : object) (k : string) :
  k <> "filePath" -> copyOf p m k = m k.
Proof.
  intros Hk. unfold copyOf, extendObject, setProp, emptyObject.
  apply String.eqb_neq in Hk. rewrite Hk.
  destruct (m k); reflexivity.
Qed.

Lemma copyOf_path (p : value) (m : object) :
  m "filePath" = VUndefined -> copyOf p m "filePath" = p.
Proof.
  intros H. unfold copyOf, extendObject, setProp. rewrite H. reflexivity.
Qed.

Section FlattenOnStore.

Variable resolve : string -> string.
Variable absolutePaths : bool.

Lemma flattenMessage_ok (h : heap) (result : object) (m : loc)
  (p : value) (o : object) :
  pathValue resolve absolutePaths result = Some p ->
  read h m = Some o ->
  flattenMessage resolve absolutePaths h result m
  = Some (List.length h, (h ++ [copyOf p o])%list).
Proof.
  intros Hp Hm. unfold flattenMessage, alloc, extendAt.
  rewrite Hp.
  replace (read (h ++ [setProp emptyObject "filePath" p]) (List.length h))
    with (Some (setProp emptyObject "filePath" p)).
  - rewrite (read_old h _ m o Hm), write_new. reflexivity.
  - symmetry. rewrite <- (Nat.add_0_r (List.length h)).
    rewrite read_new. reflexivity.
Qed.

Lemma mapMessages_ok (result : object) (p : value) (ms : list loc) :
  pathValue resolve absolutePaths result = Some p ->
  forall h,
    Forall (fun m => (m < List.length h)%nat) ms ->
    mapMessages resolve absolutePaths h result ms
    = Some (List.seq (List.length h) (List.length ms),
            (h ++ map (copyOf p) (readAll h ms))%list).
Proof.
  intros Hp. induction ms as [| m ms IH]; intros h Hms; cbn.
  - rewrite app_nil_r. reflexivity.
  - inversion Hms as [| ? ? Hm Hms']; subst.
    destruct (read_valid h m Hm) as [o Ho].
    rewrite (flattenMessage_ok h result m p o Hp Ho). cbn [fst snd].
    assert (Hms1 : Forall (fun m => (m < List.length (h ++ [copyOf p o]))%nat) ms).
    { eapply Forall_impl; [| exact Hms']. intros x Hx.
      cbv beta in Hx. rewrite length_app. cbn [List.length]. lia. }
    rewrite (IH _ Hms1). cbn [fst snd].
    rewrite (readAll_old h [copyOf p o] ms Hms').
    unfold readAll. rewrite Ho. cbn [app map].
    rewrite length_app, <- app_assoc. cbn [List.length app].
    rewrite Nat.add_1_r. reflexivity.
Qed.

Lemma copiesOfResult_length (h : heap) (r : loc) :
  validResult resolve absolutePaths h r ->
  exists result ms p,
    read h r = Some result
    /\ messagesOf result = Some ms
    /\ pathValue resolve absolutePaths result = Some p
    /\ Forall (fun m => (m < List.length h)%nat) ms
    /\ copiesOfResult resolve absolutePaths h r
       = map (copyOf p) (readAll h ms).
Proof.
  intros (result & ms & p & Hr & Hms & Hp & Hall).
  exists result, ms, p. repeat split; try assumption.
  unfold copiesOfResult. rewrite Hr, Hp, Hms. reflexivity.
Qed.

(** On a store whose results are valid, flattening succeeds: it appends
    the copies to the store and returns their locations. *)
Lemma flattenHeap_ok (h0 : heap) (results : list loc) :
  Forall (validResult resolve absolutePaths h0) results ->
  forall ext entries,
    flattenHeap resolve absolutePaths entries (h0 ++ ext) results
    = Some
        ((entries
          ++ List.seq (List.length (h0 ++ ext))
               (List.length (copiesOf resolve absolutePaths h0 results)))%list,
         ((h0 ++ ext) ++ copiesOf resolve absolutePaths h0 results)%list).
Proof.
  induction 1 as [| r rs Hr _ IH]; intros ext entries; cbn.
  - rewrite !app_nil_r. reflexivity.
  - destruct (copiesOfResult_length h0 r Hr)
      as (result & ms & p & Hread & Hms & Hp & Hall & Hcopies).
    unfold flattenResult.
    rewrite (read_old h0 ext r result Hread), Hms.
    assert (Hall' : Forall (fun m => (m < List.length (h0 ++ ext))%nat) ms).
    { eapply Forall_impl; [| exact Hall]. intros x Hx.
      cbv beta in Hx. rewrite length_app. lia. }
    rewrite (mapMessages_ok result p ms Hp _ Hall'). cbn [fst snd].
    rewrite (readAll_old h0 ext ms Hall), <- Hcopies.
    assert (Hlen : List.length (copiesOfResult resolve absolutePaths h0 r)
                   = List.length ms).
    { rewrite Hcopies, length_map. apply readAll_length, Hall. }
    rewrite <- Hlen.
    unfold copiesOf in IH |- *. cbn [flat_map].
    set (cs := copiesOfResult resolve absolutePaths h0 r).
    set (rest := flat_map (copiesOfResult resolve absolutePaths h0) rs) in *.
    rewrite <- (app_assoc h0 ext cs), IH.
    f_equal. f_equal.
    + rewrite <- app_assoc. f_equal.
      rewrite (length_app cs rest), seq_app. f_equal. f_equal.
      rewrite !length_app. lia.
    + rewrite <- !app_assoc. reflexivity.
Qed.

(** Whatever the store holds, a call of the callback only appends to it. *)
Lemma flattenMessage_appends (h h' : heap) (result : object) (m t : loc) :
  flattenMessage resolve absolutePaths h result m = Some (t, h') ->
  exists o, t = List.length h /\ h' = h ++ [o].
Proof.
  unfold flattenMessage, alloc, extendAt.
  destruct (pathValue resolve absolutePaths result) as [p |]; [| discriminate].
  destruct (read (h ++ [setProp emptyObject "filePath" p]) (List.length h))
    as [tgt |]; [| discriminate].
  destruct (read (h ++ [setProp emptyObject "filePath" p]) m)
    as [src |]; [| discriminate].
  rewrite write_new. intros [= <- <-].
  exists (extendObject tgt src). split; reflexivity.
Qed.

Lemma mapMessages_appends (result : object) (ms : list loc) :
  forall h es h',
    mapMessages resolve absolutePaths h result ms = Some (es, h') ->
    exists news, h' = h ++ news.
Proof.
  induction ms as [| m ms IH]; intros h es h'; cbn.
  - intros [= <- <-]. exists []. symmetry; apply app_nil_r.
  - destruct (flattenMessage resolve absolutePaths h result m)
      as [[t h1] |] eqn:E1; [| discriminate].
    cbn [fst snd].
    destruct (mapMessages resolve absolutePaths h1 result ms)
      as [[es2 h2] |] eqn:E2; [| discriminate].
    cbn [fst snd]. intros [= <- <-].
    destruct (flattenMessage_appends _ _ _ _ _ E1) as (o & _ & ->).
    destruct (IH _ _ _ E2) as (news & ->).
    exists (o :: news). rewrite <- app_assoc. reflexivity.
Qed.

Lemma flattenHeap_appends (results : list loc) :
  forall entries h es h',
    flattenHeap resolve absolutePaths entries h results = Some (es, h') ->
    exists news, h' = h ++ news.
Proof.
  induction results as [| r rs IH]; intros entries h es h'; cbn.
  - intros [= <- <-]. exists []. symmetry; apply app_nil_r.
  - unfold flattenResult.
    destruct (read h r) as [result |]; [| discriminate].
    destruct (messagesOf result) as [ms |]; [| discriminate].
    destruct (mapMessages resolve absolutePaths h result ms)
      as [[es1 h1] |] eqn:E1; [| discriminate].
    cbn [fst snd]. intros E2.
    destruct (mapMessages_appends _ _ _ _ _ E1) as (news1 & ->).
    destruct (IH _ _ _ _ E2) as (news2 & ->).
    exists (news1 ++ news2). rewrite <- app_assoc. reflexivity.
Qed.

(** No object that was in the store before flattening is changed by it. *)
Lemma flattenHeap_frame (results : list loc) (h : heap) (es : list loc)
  (h' : heap) :
  flattenHeap resolve absolutePaths [] h results = Some (es, h') ->
  forall l o, read h l = Some o -> read h' l = Some o.
Proof.
  intros H l o Hl.
  destruct (flattenHeap_appends _ _ _ _ _ H) as (news & ->).
  apply read_old. exact Hl.
Qed.

End FlattenOnStore.

Section Decode.

Variable resolve : string -> string.
Variable cfg : Config.

Ltac split_decode H :=
  repeat match type of H with
         | context [match ?c with _ => _ end] =>
             destruct c eqn:?; try discriminate H
         end.

Lemma decodeMessage_no_path (o : object) (x : Message) :
  decodeMessage o = Some x -> o "filePath" = VUndefined.
Proof.
  unfold decodeMessage. intros H. split_decode H. reflexivity.
Qed.

(** The copy of a well-shaped message is the entry that [extend] builds. *)
Lemma decodeEntry_copyOf (o : object) (x : Message) (p : string) :
  decodeMessage o = Some x ->
  decodeEntry (copyOf (VStr p) o) = Some (extend p x).
Proof.
  intros H. pose proof (decodeMessage_no_path o x H) as Hp.
  unfold decodeEntry.
  rewrite (copyOf_path (VStr p) o Hp).
  rewrite (copyOf_other (VStr p) o "severity") by discriminate.
  rewrite (copyOf_other (VStr p) o "ruleId") by discriminate.
  rewrite (copyOf_other (VStr p) o "line") by discriminate.
  rewrite (copyOf_other (VStr p) o "column") by discriminate.
  rewrite (copyOf_other (VStr p) o "message") by discriminate.
  rewrite (copyOf_other (VStr p) o "source") by discriminate.
  rewrite (copyOf_other (VStr p) o "fatal") by discriminate.
  unfold decodeMessage in H. cbn [asString].
  split_decode H.
  injection H as <-. reflexivity.
Qed.

Lemma decodeMessages_valid (h : heap) (ms : list loc) :
  forall xs,
    decodeMessages h ms = Some xs ->
    Forall (fun m => (m < List.length h)%nat) ms.
Proof.
  induction ms as [| m ms IH]; intros xs H; cbn in H.
  - constructor.
  - destruct (read h m) as [o |] eqn:Hm; [| discriminate].
    destruct (decodeMessage o); [| discriminate].
    destruct (decodeMessages h ms) as [ys |]; [| discriminate].
    constructor.
    + apply nth_error_Some. unfold read in Hm. congruence.
    + apply (IH ys). reflexivity.
Qed.

Lemma decodeMessages_copies (h : heap) (p : string) (ms : list loc) :
  forall xs,
    decodeMessages h ms = Some xs ->
    map decodeEntry (map (copyOf (VStr p)) (readAll h ms))
    = map Some (map (extend p) xs).
Proof.
  unfold readAll.
  induction ms as [| m ms IH]; intros xs H; cbn in H.
  - injection H as <-. reflexivity.
  - destruct (read h m) as [o |] eqn:Hm; [| discriminate].
    destruct (decodeMessage o) as [x |] eqn:Ho; [| discriminate].
    destruct (decodeMessages h ms) as [ys |]; [| discriminate].
    injection H as <-. cbn [flat_map]. rewrite Hm. cbn [app map].
    rewrite (decodeEntry_copyOf o x p Ho), (IH ys); reflexivity.
Qed.

(** A result that decodes is valid, and its copies decode to the entries
    that [flattenStep] adds for it. *)
Lemma decodeResult_copies (h : heap) (r : loc) (result : object)
  (x : FileResult) :
  read h r = Some result ->
  decodeResult h result = Some x ->
  validResult resolve (absolutePathsToFile cfg) h r
  /\ map decodeEntry (copiesOfResult resolve (absolutePathsToFile cfg) h r)
     = map Some
         (map (extend (entryPath resolve cfg x))
            (match r_messages x with Some ms => ms | None => [] end)).
Proof.
  intros Hr H. unfold decodeResult in H.
  destruct (result "filePath") eqn:Ep; try discriminate H.
  cbn [asString] in H.
  assert (Hpath :
    pathValue resolve (absolutePathsToFile cfg) result
    = Some (VStr (if absolutePathsToFile cfg then resolve s else s))).
  { unfold pathValue, resolveValue. rewrite Ep.
    destruct (absolutePathsToFile cfg); reflexivity. }
  unfold validResult, copiesOfResult. rewrite Hr, Hpath.
  destruct (result "messages") as [| | | | items] eqn:Em; try discriminate H.
  - injection H as <-.
    assert (Hms : messagesOf result = Some []).
    { unfold messagesOf. rewrite Em. reflexivity. }
    rewrite Hms. split; [| reflexivity].
    exists result, [], (VStr (if absolutePathsToFile cfg then resolve s else s)).
    repeat split; try assumption. constructor.
  - destruct (decodeMessages h items) as [xs |] eqn:Ex; [| discriminate].
    injection H as <-.
    assert (Hms : messagesOf result = Some items).
    { unfold messagesOf. rewrite Em. reflexivity. }
    rewrite Hms. split.
    + exists result, items,
        (VStr (if absolutePathsToFile cfg then resolve s else s)).
      repeat split; try assumption.
      exact (decodeMessages_valid h items xs Ex).
    + unfold entryPath. cbn [r_filePath r_messages].
      apply decodeMessages_copies. exact Ex.
Qed.

Lemma decodeResults_copies (h : heap) (results : list loc) :
  forall xs,
    decodeResults h results = Some xs ->
    Forall (validResult resolve (absolutePathsToFile cfg) h) results
    /\ map decodeEntry (copiesOf resolve (absolutePathsToFile cfg) h results)
       = map Some (flatten resolve cfg xs).
Proof.
  unfold copiesOf.
  induction results as [| r rs IH]; intros xs H; cbn in H.
  - injection H as <-. split; [constructor | reflexivity].
  - destruct (read h r) as [result |] eqn:Hr; [| discriminate].
    destruct (decodeResult h result) as [x |] eqn:Hx; [| discriminate].
    destruct (decodeResults h rs) as [ys |]; [| discriminate].
    injection H as <-.
    destruct (decodeResult_copies h r result x Hr Hx) as [Hv Hc].
    destruct (IH ys eq_refl) as [Hvs Hcs].
    split; [constructor; assumption |].
    rewrite flatten_flat_map. cbn [flat_map].
    rewrite !map_app, Hc, Hcs, flatten_flat_map. reflexivity.
Qed.

Lemma decodeEntries_new (news : list object) :
  forall pre xs,
    map decodeEntry news = map Some xs ->
    decodeEntries (pre ++ news) (List.seq (List.length pre) (List.length news))
    = Some xs.
Proof.
  induction news as [| o news IH]; intros pre xs H.
  - destruct xs; [reflexivity | discriminate].
  - destruct xs as [| x xs]; [discriminate |].
    cbn in H. injection H as Ho Hrest.
    cbn [List.length List.seq decodeEntries].
    rewrite <- (Nat.add_0_r (List.length pre)) at 1.
    rewrite read_new. cbn [nth_error]. rewrite Ho.
    replace (pre ++ o :: news) with ((pre ++ [o]) ++ news)
      by (rewrite <- app_assoc; reflexivity).
    replace (S (List.length pre)) with (List.length (pre ++ [o]))
      by (rewrite length_app; cbn; lia).
    rewrite (IH (pre ++ [o]) xs Hrest). reflexivity.
Qed.

Lemma decodeMessages_no_path (h : heap) (ms : list loc) :
  forall xs,
    decodeMessages h ms = Some xs ->
    forall m o, In m ms -> read h m = Some o -> o "filePath" = VUndefined.
Proof.
  induction ms as [| m0 ms IH]; intros xs H m o Hin Hm; cbn in H.
  - contradiction.
  - destruct (read h m0) as [o0 |] eqn:Hm0; [| discriminate].
    destruct (decodeMessage o0) as [x |] eqn:Ho; [| discriminate].
    destruct (decodeMessages h ms) as [ys |]; [| discriminate].
    destruct Hin as [<- | Hin].
    + rewrite Hm0 in Hm. injection Hm as <-.
      exact (decodeMessage_no_path o0 x Ho).
    + exact (IH ys eq_refl m o Hin Hm).
Qed.

Lemma readAll_In (h : heap) (ms : list loc) (o : object) :
  In o (readAll h ms) -> exists m, In m ms /\ read h m = Some o.
Proof.
  unfold readAll. rewrite in_flat_map. intros (m & Hm & Ho).
  exists m. split; [exact Hm |].
  destruct (read h m) as [o' |]; [| contradiction].
  destruct Ho as [<- | []]. reflexivity.
Qed.

(** The shape of a result that decodes, and of the copies made for it. *)
Lemma decodeResult_shape (h : heap) (r : loc) (result : object)
  (x : FileResult) :
  read h r = Some result ->
  decodeResult h result = Some x ->
  exists path ms,
    result "filePath" = VStr path
    /\ messagesOf result = Some ms
    /\ copiesOfResult resolve (absolutePathsToFile cfg) h r
       = map (copyOf (VStr (if absolutePathsToFile cfg
                            then resolve path else path)))
           (readAll h ms)
    /\ (forall m o, In m ms -> read h m = Some o ->
          o "filePath" = VUndefined).
Proof.
  intros Hr H. unfold decodeResult in H.
  destruct (result "filePath") eqn:Ep; try discriminate H.
  cbn [asString] in H. exists s.
  assert (Hpath :
    pathValue resolve (absolutePathsToFile cfg) result
    = Some (VStr (if absolutePathsToFile cfg then resolve s else s))).
  { unfold pathValue, resolveValue. rewrite Ep.
    destruct (absolutePathsToFile cfg); reflexivity. }
  unfold copiesOfResult. rewrite Hr, Hpath.
  destruct (result "messages") as [| | | | items] eqn:Em; try discriminate H.
  - exists []. unfold messagesOf. rewrite Em. cbn.
    repeat split. intros m o [].
  - destruct (decodeMessages h items) as [xs |] eqn:Ex; [| discriminate].
    exists items. unfold messagesOf. rewrite Em.
    repeat split. exact (decodeMessages_no_path h items xs Ex).
Qed.

Lemma decodeResults_read (h : heap) (results : list loc) :
  forall xs,
    decodeResults h results = Some xs ->
    forall r, In r results ->
      exists result x, read h r = Some result /\ decodeResult h result = Some x.
Proof.
  induction results as [| r0 rs IH]; intros xs H r Hin; cbn in H.
  - contradiction.
  - destruct (read h r0) as [result |] eqn:Hr; [| discriminate].
    destruct (decodeResult h result) as [x |] eqn:Hx; [| discriminate].
    destruct (decodeResults h rs) as [ys |]; [| discriminate].
    destruct Hin as [<- | Hin].
    + exists result, x. split; assumption.
    + exact (IH ys eq_refl r Hin).
Qed.

End Decode.

(** C9. On a store that holds well-shaped results, flattening succeeds
    and writes into no object that was there before: every entry is an
    object of its own at a new location.  Read as records, the entries
    are those of [flatten]; on the store, each entry has the file path of
    its result (passed through [path.resolve] exactly once when absolute
    paths are asked for, and as it is otherwise), and every other property
    has the value it has in the message the entry was copied from. *)
Theorem flatten_copies_without_mutation :
  forall resolve cfg h results xs,
    decodeResults h results = Some xs ->
    exists es h',
      flattenHeap resolve (absolutePathsToFile cfg) [] h results
      = Some (es, h')
      /\ (forall l o, read h l = Some o -> read h' l = Some o)
      /\ Forall (fun e => (List.length h <= e)%nat) es
      /\ NoDup es
      /\ decodeEntries h' es = Some (flatten resolve cfg xs)
      /\ (forall e, In e es ->
            exists r result ms m original copy path,
              In r results /\ read h r = Some result
              /\ messagesOf result = Some ms /\ In m ms
              /\ read h m = Some original /\ read h' e = Some copy
              /\ result "filePath" = VStr path
              /\ copy "filePath"
                 = VStr (if absolutePathsToFile cfg
                         then resolve path else path)
              /\ (forall k, k <> "filePath" -> copy k = original k)).
Proof.
  intros resolve cfg h results xs Hdec.
  destruct (decodeResults_copies resolve cfg h results xs Hdec)
    as [Hvalid Hcopies].
  pose proof (flattenHeap_ok resolve (absolutePathsToFile cfg) h results
                Hvalid [] []) as Hok.
  rewrite app_nil_r in Hok. cbn [app] in Hok.
  set (news := copiesOf resolve (absolutePathsToFile cfg) h results) in *.
  exists (List.seq (List.length h) (List.length news)), (h ++ news).
  split; [exact Hok |].
  split; [intros l o Hl; apply read_old; exact Hl |].
  split; [apply Forall_forall; intros e He; apply in_seq in He; lia |].
  split; [apply seq_NoDup |].
  split; [apply decodeEntries_new; exact Hcopies |].
  intros e He. apply in_seq in He.
  replace e with (List.length h + (e - List.length h))%nat by lia.
  rewrite read_new.
  assert (Hi : (e - List.length h < List.length news)%nat) by lia.
  apply nth_error_Some in Hi.
  destruct (nth_error news (e - List.length h)) as [copy |] eqn:Hcopy;
    [| contradiction].
  apply nth_error_In in Hcopy. unfold news, copiesOf in Hcopy.
  apply in_flat_map in Hcopy. destruct Hcopy as (r & Hr & Hcopy).
  destruct (decodeResults_read h results xs Hdec r Hr)
    as (result & x & Hread & Hx).
  destruct (decodeResult_shape resolve cfg h r result x Hread Hx)
    as (path & ms & Hpath & Hms & Hshape & Hnopath).
  rewrite Hshape in Hcopy. apply in_map_iff in Hcopy.
  destruct Hcopy as (original & <- & Horig).
  destruct (readAll_In h ms original Horig) as (m & Hm & Hreadm).
  exists r, result, ms, m, original,
    (copyOf (VStr (if absolutePathsToFile cfg then resolve path else path))
       original), path.
  repeat split; try assumption.
  - apply copyOf_path. exact (Hnopath m original Hm Hreadm).
  - intros k Hk. apply copyOf_other. exact Hk.
Qed.

Lemma flatten_copies_without_mutation_witness :
  exists es h',
    flattenHeap resolveInWork true [] exampleHeap [2%nat] = Some (es, h')
    /\ (forall l o, read exampleHeap l = Some o -> read h' l = Some o)
    /\ Forall (fun e => (3 <= e)%nat) es
    /\ NoDup es
    /\ decodeEntries h' es
       = Some (flatten resolveInWork (mkConfig true false None)
                 [ mkFileResult "src/a.js"
                     (Some [ mkMessage 2 false (Some "semi") (Some 3) (Some 8)
                               "Missing semicolon." None;
                             mkMessage 2 true None None None
                               "Parsing error: Unexpected token" None ]) ])
    /\ (forall e, In e es ->
          exists r result ms m original copy path,
            In r [2%nat] /\ read exampleHeap r = Some result
            /\ messagesOf result = Some ms /\ In m ms
            /\ read exampleHeap m = Some original /\ read h' e = Some copy
            /\ result "filePath" = VStr path
            /\ copy "filePath" = VStr (resolveInWork path)
            /\ (forall k, k <> "filePath" -> copy k = original k)).
Proof.
  apply (flatten_copies_without_mutation resolveInWork
           (mkConfig true false None) exampleHeap [2%nat]).
  reflexivity.
Defined.

End HeapFacts.


(* ------------------------------------------------------------------ *)
(** * Further properties: flattening and the empty report *)
(* ------------------------------------------------------------------ *)

(** X1. Flattening is a concatenation: the entries of two lists of results
    put end to end are the entries of the first followed by those of the
    second, and there is one entry for every message of every result, a
    result without a [messages] collection counting for none. *)
Theorem flatten_concatenates :
  forall resolve cfg (rs1 rs2 : list FileResult),
    flatten resolve cfg (rs1 ++ rs2)
    = (flatten resolve cfg rs1 ++ flatten resolve cfg rs2)%list
    /\ List.length (flatten resolve cfg rs1)
       = list_sum
           (map (fun r =>
                   match r_messages r with
                   | Some ms => List.length ms
                   | None => O
                   end)
              rs1).
Proof.
  intros resolve cfg rs1 rs2. rewrite !flatten_flat_map. split.
  - apply flat_map_app.
  - induction rs1 as [| r rs IH]; cbn [flat_map map list_sum].
    + reflexivity.
    + rewrite length_app, length_map, IH.
      destruct (r_messages r); reflexivity.
Qed.

Lemma flatten_nil_iff (resolve : string -> string) (cfg : Config)
  (rs : list FileResult) :
  flatten resolve cfg rs = [] <-> Forall noMessages rs.
Proof.
  split.
  - rewrite flatten_flat_map.
    induction rs as [| r rs IH]; cbn [flat_map]; intros H.
    + constructor.
    + apply app_eq_nil in H. destruct H as [Hr Hrs].
      constructor; [| exact (IH Hrs)].
      unfold noMessages. destruct (r_messages r) as [ms |]; [| left; reflexivity].
      right. destruct ms; [reflexivity | discriminate].
  - intros H. unfold flatten.
    apply (fold_flattenStep_noMessages resolve cfg rs H).
Qed.

Lemma sortEntries_length (localeCompare : string -> string -> Z)
  (cfg : Config) (l : list Entry) :
  List.length (sortEntries localeCompare cfg l) = List.length l.
Proof.
  symmetry. apply Permutation_length. unfold sortEntries.
  apply sort_Permutation.
Qed.

(** X2. The report is the empty string exactly when no result has a
    message; the filter plays no part in this.  A report that is not empty
    starts with a line feed. *)
Theorem formatter_empty_iff_no_message :
  forall chalk table resolve localeCompare cfg results,
    (formatter chalk table resolve localeCompare cfg results = ""
     <-> Forall noMessages
           (match results with Some rs => rs | None => [] end))
    /\ (formatter chalk table resolve localeCompare cfg results = ""
        \/ exists rest,
             formatter chalk table resolve localeCompare cfg results
             = Js.LF ++ rest).
Proof.
  intros chalk table resolve localeCompare cfg results.
  set (rs := match results with Some rs => rs | None => [] end).
  assert (Hform :
    formatter chalk table resolve localeCompare cfg results
    = if Nat.ltb 0 (List.length (flatten resolve cfg rs))
      then Js.LF
           ++ (mainTable table
                 (buildRows chalk cfg
                    (sortEntries localeCompare cfg (flatten resolve cfg rs)))
               ++ Js.LF ++ Js.LF)
           ++ reportTail chalk table
                (List.length
                   (sortEntries localeCompare cfg (flatten resolve cfg rs)))
                (buildRows chalk cfg
                   (sortEntries localeCompare cfg (flatten resolve cfg rs)))
      else "").
  { unfold formatter. fold rs. rewrite sortEntries_length.
    destruct (Nat.ltb 0 (List.length (flatten resolve cfg rs)));
      [| reflexivity].
    reflexivity. }
  rewrite Hform, <- (flatten_nil_iff resolve cfg rs).
  destruct (flatten resolve cfg rs) as [| e es]; cbn [List.length Nat.ltb Nat.leb].
  - split; [split; intros _; reflexivity | left; reflexivity].
  - split.
    + split; intros H; discriminate H.
    + right. eexists. reflexivity.
Qed.


(* ------------------------------------------------------------------ *)
(** * Further properties: the sort *)
(* ------------------------------------------------------------------ *)

Section SortByVerdict.

Context {A : Type}.
Variable cmp : A -> A -> Z.
Variable le : A -> A -> Prop.

Hypothesis le_trans : forall a b c, le a b -> le b c -> le a c.
Hypothesis cmp_before : forall a b, cmp a b <= 0 -> le a b.
Hypothesis cmp_after : forall a b, 0 < cmp a b -> le b a.



End SortByVerdict.




Section SortedInput.

Context {A : Type}.
Variable cmp : A -> A -> Z.
Variable ord : A -> A -> comparison.
Variable P : A -> Prop.

Hypothesis ord_consistent : Consistent ord.
Hypothesis cmp_agrees :
  forall a b, P a -> P b -> (cmp a b ?= 0) = ord a b.

(** An element that may stand before the head of a list is inserted at
    its front. *)
Lemma insert_front (x : A) (l : list A) :
  P x -> Forall P l ->
  match l with [] => True | y :: _ => ord x y <> Gt end ->
  Js.insert cmp x l = x :: l.
Proof.
  intros Px Pl H. destruct l as [| y l]; [reflexivity |]. cbn.
  inversion Pl as [| ? ? Py _]; subst.
  rewrite <- (cmp_agrees x y Px Py) in H.
  apply Z.compare_le_iff, Z.leb_le in H. rewrite H. reflexivity.
Qed.

Lemma sort_of_sorted (l : list A) :
  Forall P l -> StronglySorted (fun a b => ord a b <> Gt) l ->
  Js.sort cmp l = l.
Proof.
  intros Pl Hs. induction Hs as [| x l Hs IH Hx].
  - reflexivity.
  - inversion Pl as [| ? ? Px Pl']; subst.
    unfold Js.sort. cbn [fold_right].
    change (fold_right (Js.insert cmp) [] l) with (Js.sort cmp l).
    rewrite (IH Pl'). apply insert_front; try assumption.
    destruct l as [| y l]; [exact I |].
    inversion Hx; assumption.
Qed.

Lemma filter_insert (f : A -> bool) (x : A) (l : list A) :
  P x -> Forall P l -> StronglySorted (fun a b => ord a b <> Gt) l ->
  filter f (Js.insert cmp x l)
  = if f x then Js.insert cmp x (filter f l) else filter f l.
Proof.
  intros Px Pl Hs. induction Hs as [| y l Hs IH Hy].
  - cbn. destruct (f x); reflexivity.
  - inversion Pl as [| ? ? Py Pl']; subst. cbn [Js.insert].
    destruct (cmp x y <=? 0) eqn:E.
    + change (filter f (x :: y :: l))
        with (if f x then x :: filter f (y :: l) else filter f (y :: l)).
      destruct (f x) eqn:Fx; [| reflexivity].
      assert (Hxy : ord x y <> Gt).
      { rewrite <- (cmp_agrees x y Px Py).
        apply Z.compare_le_iff, Z.leb_le. exact E. }
      assert (Hin : forall z, In z (filter f (y :: l)) ->
                              P z /\ ord x z <> Gt).
      { intros z Hz. apply filter_In in Hz. destruct Hz as [Hz _].
        split; [revert z Hz; apply Forall_forall; exact Pl |].
        destruct Hz as [<- | Hz]; [exact Hxy |].
        destruct ord_consistent as [_ Ht]. apply (Ht x y z Hxy).
        revert z Hz. apply Forall_forall. exact Hy. }
      symmetry. apply insert_front.
      * exact Px.
      * apply Forall_forall. intros z Hz. apply (Hin z Hz).
      * destruct (filter f (y :: l)) as [| z fl]; [exact I |].
        apply (Hin z). left; reflexivity.
    + cbn [filter]. rewrite (IH Pl').
      destruct (f y); destruct (f x); try reflexivity.
      cbn [Js.insert]. rewrite E. reflexivity.
Qed.

Lemma filter_sort (f : A -> bool) (l : list A) :
  Forall P l -> filter f (Js.sort cmp l) = Js.sort cmp (filter f l).
Proof.
  induction 1 as [| x l Px Pl IH]; cbn [Js.sort fold_right filter].
  - reflexivity.
  - change (fold_right (Js.insert cmp) [] l) with (Js.sort cmp l).
    rewrite filter_insert.
    + rewrite IH. destruct (f x); reflexivity.
    + exact Px.
    + apply sort_Forall. exact Pl.
    + apply (sort_sorted cmp ord P ord_consistent cmp_agrees). exact Pl.
Qed.

End SortedInput.

(** X4. Diagnostics that are already in the order of the five keys are
    left as they are, so sorting twice is sorting once. *)
Theorem sorting_sorted_entries_changes_nothing :
  forall localeCompare cfg (entries : list Entry),
    consistentComparator localeCompare ->
    Forall (keyed (groupByIssue cfg)) entries ->
    (StronglySorted (specBefore localeCompare (groupByIssue cfg)) entries ->
     sortEntries localeCompare cfg entries = entries)
    /\ sortEntries localeCompare cfg (sortEntries localeCompare cfg entries)
       = sortEntries localeCompare cfg entries.
Proof.
  intros localeCompare cfg entries Hlc Hkeyed.
  pose proof (Consistent_specCompare localeCompare (groupByIssue cfg) Hlc)
    as Hord.
  pose proof (compareEntries_specCompare localeCompare cfg) as Hagree.
  unfold sortEntries. split.
  - intros Hs.
    exact (sort_of_sorted _ _ _ Hagree entries Hkeyed Hs).
  - apply (sort_of_sorted _ _ _ Hagree).
    + apply sort_Forall. exact Hkeyed.
    + exact (sort_sorted _ _ _ Hord Hagree entries Hkeyed).
Qed.

Lemma sorting_sorted_entries_changes_nothing_witness :
  sortEntries codeCompare defaultConfig
    (sortEntries codeCompare defaultConfig [semiEntry; unusedEntry; parseEntry])
  = sortEntries codeCompare defaultConfig [semiEntry; unusedEntry; parseEntry].
Proof.
  apply (sorting_sorted_entries_changes_nothing codeCompare defaultConfig
           [semiEntry; unusedEntry; parseEntry]).
  - exact codeCompare_consistent.
  - repeat constructor; cbn; discriminate.
Defined.

(** X5. The filter is applied to the sorted sequence; the rows are the
    same as if the matching diagnostics had been picked out first and
    sorted afterwards. *)
Theorem filtering_after_sorting_is_sorting_the_filtered :
  forall chalk localeCompare cfg (entries : list Entry),
    consistentComparator localeCompare ->
    Forall (keyed (groupByIssue cfg)) entries ->
    survivors cfg (sortEntries localeCompare cfg entries)
    = sortEntries localeCompare cfg (survivors cfg entries)
    /\ seq (buildRows chalk cfg (sortEntries localeCompare cfg entries))
       = map (buildRow chalk)
           (sortEntries localeCompare cfg (survivors cfg entries)).
Proof.
  intros chalk localeCompare cfg entries Hlc Hkeyed.
  pose proof (Consistent_specCompare localeCompare (groupByIssue cfg) Hlc)
    as Hord.
  pose proof (compareEntries_specCompare localeCompare cfg) as Hagree.
  assert (H : survivors cfg (sortEntries localeCompare cfg entries)
              = sortEntries localeCompare cfg (survivors cfg entries)).
  { unfold survivors, sortEntries.
    exact (filter_sort _ _ _ Hord Hagree _ entries Hkeyed). }
  split; [exact H |].
  unfold buildRows. rewrite fold_rowStep_seq, H. reflexivity.
Qed.

Lemma filtering_after_sorting_is_sorting_the_filtered_witness :
  survivors semiFilterConfig
    (sortEntries codeCompare semiFilterConfig
       [semiEntry; unusedEntry; parseEntry])
  = sortEntries codeCompare semiFilterConfig
      (survivors semiFilterConfig [semiEntry; unusedEntry; parseEntry]).
Proof.
  apply (filtering_after_sorting_is_sorting_the_filtered plainChalk
           codeCompare semiFilterConfig [semiEntry; unusedEntry; parseEntry]).
  - exact codeCompare_consistent.
  - repeat constructor; cbn; discriminate.
Defined.


(* ------------------------------------------------------------------ *)
(** * Further properties: counters, tallies and the summary colour *)
(* ------------------------------------------------------------------ *)

Lemma hash_incr_sum (h : Hash) (key : string) :
  list_sum (map snd (hash_incr h key)) = S (list_sum (map snd h)).
Proof.
  unfold list_sum.
  induction h as [| [k v] h IH]; cbn [hash_incr map snd fold_right].
  - reflexivity.
  - destruct (String.eqb k key); cbn [map snd fold_right].
    + reflexivity.
    + rewrite IH. lia.
Qed.

Lemma hash_incr_keys_In (h : Hash) (key k : string) :
  In k (hash_keys (hash_incr h key)) <-> k = key \/ In k (hash_keys h).
Proof.
  unfold hash_keys. induction h as [| [k0 v] h IH]; cbn.
  - split; [intros [H | []]; left; congruence | intros [H | []]; left; congruence].
  - destruct (String.eqb k0 key) eqn:E; cbn.
    + apply String.eqb_eq in E. subst k0.
      split; [intros H; right; exact H |].
      intros [-> | H]; [left; reflexivity | exact H].
    + rewrite IH. split.
      * intros [H | [H | H]]; auto.
      * intros [H | [H | H]]; auto.
Qed.

Lemma hash_incr_keys_NoDup (h : Hash) (key : string) :
  NoDup (hash_keys h) -> NoDup (hash_keys (hash_incr h key)).
Proof.
  unfold hash_keys. induction h as [| [k0 v] h IH]; cbn; intros H.
  - constructor; [intros [] | constructor].
  - inversion H as [| ? ? Hnot Hrest]; subst.
    destruct (String.eqb k0 key) eqn:E; cbn.
    + constructor; assumption.
    + constructor; [| apply IH; exact Hrest].
      intros Hin. apply (hash_incr_keys_In h key k0) in Hin.
      destruct Hin as [-> | Hin]; [| exact (Hnot Hin)].
      rewrite String.eqb_refl in E. discriminate.
Qed.

Lemma hash_incr_positive (h : Hash) (key : string) :
  Forall (fun kv => (1 <= snd kv)%nat) h ->
  Forall (fun kv => (1 <= snd kv)%nat) (hash_incr h key).
Proof.
  induction 1 as [| [k v] h Hv Hh IH]; cbn.
  - constructor; [cbn; lia | constructor].
  - destruct (String.eqb k key); constructor; cbn in *; try lia; assumption.
Qed.

Section Tallies.

Variable chalk : list Style -> string -> string.
Variable cfg : Config.

(** The surviving diagnostics that are errors, or warnings, of one key. *)
Let errorsOf (k : string) (entries : list Entry) : list Entry :=
  filter (fun e => isErrorEntry e && String.eqb (Js.property_key (ruleId e)) k)
    (survivors cfg entries).

Let warningsOf (k : string) (entries : list Entry) : list Entry :=
  filter (fun e => negb (isErrorEntry e)
                   && String.eqb (Js.property_key (ruleId e)) k)
    (survivors cfg entries).

Lemma fold_rowStep_split (entries : list Entry) :
  forall st,
    errors (fold_left (rowStep chalk cfg) entries st)
    = (errors st
       + List.length (filter isErrorEntry (survivors cfg entries)))%nat
    /\ warnings (fold_left (rowStep chalk cfg) entries st)
       = (warnings st
          + List.length
              (filter (fun e => negb (isErrorEntry e))
                 (survivors cfg entries)))%nat.
Proof.
  unfold survivors.
  induction entries as [| e es IH]; intros st; cbn [fold_left filter].
  - cbn. split; lia.
  - destruct (IH (rowStep chalk cfg st e)) as [IHe IHw].
    rewrite IHe, IHw.
    destruct (rowStep_cases chalk cfg st e)
      as [[Hf Hst] | [(Hf & Hi & _ & He & Hw & _) | (Hf & Hi & _ & He & Hw & _)]];
      rewrite Hf; cbn [negb filter].
    + rewrite Hst. split; reflexivity.
    + rewrite He, Hw, Hi. cbn [negb List.length]. split; lia.
    + rewrite He, Hw, Hi. cbn [negb List.length]. split; lia.
Qed.

Lemma fold_rowStep_tally (k : string) (entries : list Entry) :
  forall st,
    hash_count (errorsHash (fold_left (rowStep chalk cfg) entries st)) k
    = (hash_count (errorsHash st) k + List.length (errorsOf k entries))%nat
    /\ hash_count (warningsHash (fold_left (rowStep chalk cfg) entries st)) k
       = (hash_count (warningsHash st) k
          + List.length (warningsOf k entries))%nat.
Proof.
  unfold errorsOf, warningsOf, survivors.
  induction entries as [| e es IH]; intros st; cbn [fold_left filter].
  - cbn. split; lia.
  - destruct (IH (rowStep chalk cfg st e)) as [IHe IHw].
    rewrite IHe, IHw.
    destruct (rowStep_cases chalk cfg st e)
      as [[Hf Hst] | [(Hf & Hi & _ & _ & _ & He & Hw) | (Hf & Hi & _ & _ & _ & He & Hw)]];
      rewrite Hf; cbn [negb filter].
    + rewrite Hst. split; reflexivity.
    + rewrite He, Hw, Hi, hash_count_incr. cbn [negb andb].
      destruct (String.eqb (Js.property_key (ruleId e)) k);
        cbn [List.length]; split; lia.
    + rewrite He, Hw, Hi, hash_count_incr. cbn [negb andb].
      destruct (String.eqb (Js.property_key (ruleId e)) k);
        cbn [List.length]; split; lia.
Qed.

Lemma fold_rowStep_hash_shape (entries : list Entry) :
  forall st,
    (NoDup (hash_keys (errorsHash st))
     /\ Forall (fun kv => (1 <= snd kv)%nat) (errorsHash st)
     /\ list_sum (map snd (errorsHash st)) = errors st
     /\ NoDup (hash_keys (warningsHash st))
     /\ Forall (fun kv => (1 <= snd kv)%nat) (warningsHash st)
     /\ list_sum (map snd (warningsHash st)) = warnings st) ->
    let st' := fold_left (rowStep chalk cfg) entries st in
    NoDup (hash_keys (errorsHash st'))
    /\ Forall (fun kv => (1 <= snd kv)%nat) (errorsHash st')
    /\ list_sum (map snd (errorsHash st')) = errors st'
    /\ NoDup (hash_keys (warningsHash st'))
    /\ Forall (fun kv => (1 <= snd kv)%nat) (warningsHash st')
    /\ list_sum (map snd (warningsHash st')) = warnings st'.
Proof.
  induction entries as [| e es IH]; intros st Hst; cbn [fold_left].
  - exact Hst.
  - apply IH. destruct Hst as (H1 & H2 & H3 & H4 & H5 & H6).
    destruct (rowStep_cases chalk cfg st e)
      as [[_ ->] | [(_ & _ & _ & He & Hw & Heh & Hwh) | (_ & _ & _ & He & Hw & Heh & Hwh)]].
    + repeat split; assumption.
    + rewrite He, Hw, Heh, Hwh. repeat split; try assumption.
      * apply hash_incr_keys_NoDup; exact H1.
      * apply hash_incr_positive; exact H2.
      * rewrite hash_incr_sum, H3. reflexivity.
    + rewrite He, Hw, Heh, Hwh. repeat split; try assumption.
      * apply hash_incr_keys_NoDup; exact H4.
      * apply hash_incr_positive; exact H5.
      * rewrite hash_incr_sum, H6. reflexivity.
Qed.

Lemma fold_rowStep_color (entries : list Entry) :
  forall st,
    summaryColor (fold_left (rowStep chalk cfg) entries st)
    = fold_left (fun _ e => if isErrorEntry e then red else yellow)
        (survivors cfg entries) (summaryColor st).
Proof.
  unfold survivors.
  induction entries as [| e es IH]; intros st; cbn [fold_left filter].
  - reflexivity.
  - rewrite IH. unfold rowStep.
    destruct (filteredOut cfg e); cbn [negb]; [reflexivity |].
    destruct (isErrorEntry e) eqn:Hi; cbn [fold_left summaryColor];
      rewrite Hi; reflexivity.
Qed.

End Tallies.

Lemma last_default {B : Type} (l : list B) :
  forall a d d', last (a :: l) d = last (a :: l) d'.
Proof.
  induction l as [| b l IH]; intros a d d'.
  - reflexivity.
  - change (last (b :: l) d = last (b :: l) d'). apply IH.
Qed.

Lemma fold_left_last {A B : Type} (g : A -> B) (l : list A) :
  forall c, fold_left (fun _ x => g x) l c = last (map g l) c.
Proof.
  induction l as [| x l IH]; intros c; cbn [fold_left map].
  - reflexivity.
  - rewrite IH. destruct l as [| y l]; [reflexivity |].
    cbn [map].
    change (last (g y :: map g l) (g x) = last (g y :: map g l) c).
    apply last_default.
Qed.

(** X6. When all rows are built, [errors] is the number of surviving
    diagnostics that are fatal or of severity 2 and [warnings] the number
    of all other surviving diagnostics. *)
Theorem counters_count_surviving_diagnostics :
  forall chalk cfg (entries : list Entry),
    errors (buildRows chalk cfg entries)
    = List.length (filter isErrorEntry (survivors cfg entries))
    /\ warnings (buildRows chalk cfg entries)
       = List.length
           (filter (fun e => negb (isErrorEntry e)) (survivors cfg entries)).
Proof.
  intros chalk cfg entries. unfold buildRows.
  destruct (fold_rowStep_split chalk cfg entries initialState) as [He Hw].
  rewrite He, Hw. split; reflexivity.
Qed.

(** X7. The error tally holds, under each key, the number of surviving
    errors whose rule identifier has that property key, and the warning
    tally the number of surviving warnings; a key that no such diagnostic
    has counts as zero. *)
Theorem tallies_count_surviving_diagnostics_by_rule :
  forall chalk cfg (entries : list Entry) (k : string),
    hash_count (errorsHash (buildRows chalk cfg entries)) k
    = List.length
        (filter
           (fun e => isErrorEntry e
                     && String.eqb (Js.property_key (ruleId e)) k)
           (survivors cfg entries))
    /\ hash_count (warningsHash (buildRows chalk cfg entries)) k
       = List.length
           (filter
              (fun e => negb (isErrorEntry e)
                        && String.eqb (Js.property_key (ruleId e)) k)
              (survivors cfg entries)).
Proof.
  intros chalk cfg entries k. unfold buildRows.
  destruct (fold_rowStep_tally chalk cfg k entries initialState) as [He Hw].
  rewrite He, Hw. split; reflexivity.
Qed.

(** X8. Each tally lists a rule once, with a count of at least one, and
    its counts add up to the counter of its class; so a summary table is
    printed exactly when its tally has a row to show. *)
Theorem tallies_partition_counters :
  forall chalk cfg (entries : list Entry),
    let st := buildRows chalk cfg entries in
    NoDup (hash_keys (errorsHash st))
    /\ Forall (fun kv => (1 <= snd kv)%nat) (errorsHash st)
    /\ list_sum (map snd (errorsHash st)) = errors st
    /\ NoDup (hash_keys (warningsHash st))
    /\ Forall (fun kv => (1 <= snd kv)%nat) (warningsHash st)
    /\ list_sum (map snd (warningsHash st)) = warnings st
    /\ (Nat.ltb 0 (errors st) = true <-> errorsHash st <> [])
    /\ (Nat.ltb 0 (warnings st) = true <-> warningsHash st <> []).
Proof.
  intros chalk cfg entries st.
  assert (H : NoDup (hash_keys (errorsHash st))
              /\ Forall (fun kv => (1 <= snd kv)%nat) (errorsHash st)
              /\ list_sum (map snd (errorsHash st)) = errors st
              /\ NoDup (hash_keys (warningsHash st))
              /\ Forall (fun kv => (1 <= snd kv)%nat) (warningsHash st)
              /\ list_sum (map snd (warningsHash st)) = warnings st).
  { apply (fold_rowStep_hash_shape chalk cfg entries initialState).
    cbn. repeat split; constructor. }
  destruct H as (H1 & H2 & H3 & H4 & H5 & H6).
  repeat (split; [assumption |]).
  split.
  - rewrite <- H3, Nat.ltb_lt.
    destruct (errorsHash st) as [| [k v] h]; cbn.
    + split; [lia | intros H; contradiction H; reflexivity].
    + inversion H2 as [| ? ? Hv _]; subst. cbn in Hv.
      split; [discriminate | lia].
  - rewrite <- H6, Nat.ltb_lt.
    destruct (warningsHash st) as [| [k v] h]; cbn.
    + split; [lia | intros H; contradiction H; reflexivity].
    + inversion H5 as [| ? ? Hv _]; subst. cbn in Hv.
      split; [discriminate | lia].
Qed.

Lemma buildRows_colour (chalk : list Style -> string -> string)
  (cfg : Config) (entries : list Entry) :
  summaryColor (buildRows chalk cfg entries)
  = if last (map isErrorEntry (survivors cfg entries)) false
    then red else yellow.
Proof.
  unfold buildRows.
  rewrite fold_rowStep_color.
  rewrite (fold_left_last (fun e => if isErrorEntry e then red else yellow)).
  cbn [summaryColor initialState].
  induction (survivors cfg entries) as [| e l IH]; [reflexivity |].
  destruct l as [| e' l]; [reflexivity |].
  exact IH.
Qed.

(** X9. The colour of the summary line is set by every row and so is that
    of the last surviving diagnostic in sorted order: red when that one is
    an error, yellow when it is a warning or when nothing survives. *)
Theorem summary_colour_is_that_of_last_row :
  forall chalk cfg (entries : list Entry),
    summaryColor (buildRows chalk cfg entries)
    = if last (map isErrorEntry (survivors cfg entries)) false
      then red else yellow.
Proof.
  intros chalk cfg entries. apply buildRows_colour.
Qed.




Lemma survivors_all (cfg : Config) (entries : list Entry) :
  Js.truthy_str (filterRule cfg) = false -> survivors cfg entries = entries.
Proof.
  intros H. unfold survivors.
  induction entries as [| e es IH]; cbn [filter].
  - reflexivity.
  - assert (Hf : filteredOut cfg e = false).
    { unfold filteredOut. destruct (filterRule cfg) as [f |]; [| reflexivity].
      rewrite H. reflexivity. }
    rewrite Hf, IH. reflexivity.
Qed.

(** X11. The total of the summary line is the number of all flattened
    diagnostics, so it is never below [errors + warnings]; when no filter
    is set, or the filter is the empty string, every diagnostic gets a row
    and the total is [errors + warnings]. *)
Theorem total_bounds_counters :
  forall chalk localeCompare cfg (entries : list Entry),
    let sorted := sortEntries localeCompare cfg entries in
    let st := buildRows chalk cfg sorted in
    List.length sorted = List.length entries
    /\ (errors st + warnings st <= List.length sorted)%nat
    /\ (Js.truthy_str (filterRule cfg) = false ->
        List.length (seq st) = List.length entries
        /\ (errors st + warnings st)%nat = List.length sorted).
Proof.
  intros chalk localeCompare cfg entries sorted st. subst st.
  split; [apply sortEntries_length |].
  rewrite counters_are_rows, rows_are_survivors.
  split.
  - unfold survivors. apply filter_length_le.
  - intros H. rewrite (survivors_all cfg sorted H).
    split; [apply sortEntries_length | reflexivity].
Qed.

Lemma total_bounds_counters_witness :
  (errors (buildRows plainChalk emptyFilterConfig
             (sortEntries codeCompare emptyFilterConfig
                [semiEntry; unusedEntry]))
   + warnings (buildRows plainChalk emptyFilterConfig
                 (sortEntries codeCompare emptyFilterConfig
                    [semiEntry; unusedEntry])))%nat
  = List.length
      (sortEntries codeCompare emptyFilterConfig [semiEntry; unusedEntry]).
Proof.
  apply (total_bounds_counters plainChalk codeCompare emptyFilterConfig
           [semiEntry; unusedEntry]).
  reflexivity.
Defined.


(* ------------------------------------------------------------------ *)
(** * Further properties: the summary tables, the arguments, the markers *)
(* ------------------------------------------------------------------ *)


Lemma indexOf_absent (x : string) (xs : list string) :
  ~ In x xs -> indexOf x xs = -1.
Proof.
  induction xs as [| y ys IH]; intros H; cbn.
  - reflexivity.
  - destruct (String.eqb_spec y x) as [E | E].
    + exfalso. apply H. left. exact E.
    + rewrite IH; [reflexivity |]. intros Hin. apply H. right. exact Hin.
Qed.

Lemma indexOf_first (x : string) (pre post : list string) :
  ~ In x pre ->
  indexOf x (pre ++ x :: post) = Z.of_nat (List.length pre).
Proof.
  induction pre as [| y ys IH]; intros H.
  - cbn. rewrite String.eqb_refl. reflexivity.
  - cbn [app indexOf].
    destruct (String.eqb_spec y x) as [E | E].
    + exfalso. apply H. left. exact E.
    + rewrite IH; [| intros Hin; apply H; right; exact Hin].
      cbv zeta.
      destruct (Z.ltb_spec (Z.of_nat (List.length ys)) 0); [lia |].
      cbn [List.length]. lia.
Qed.

(** X13. The arguments handed to [minimist] are those after the first
    ["--"]; when the command line has no ["--"], they are the whole of
    [process.argv], the path of the interpreter and of the script
    included. *)
Theorem restArgs_after_first_separator :
  forall (argv pre post : list string),
    (~ In "--" argv -> restArgs argv = argv)
    /\ (~ In "--" pre -> restArgs (pre ++ "--" :: post) = post).
Proof.
  intros argv pre post. unfold restArgs, slice. split; intros H.
  - rewrite (indexOf_absent "--" argv H). reflexivity.
  - rewrite (indexOf_first "--" pre post H).
    destruct (Z.ltb_spec (Z.of_nat (List.length pre) + 1) 0); [lia |].
    replace (Z.to_nat (Z.of_nat (List.length pre) + 1))
      with (1 + List.length pre)%nat by lia.
    rewrite <- skipn_skipn, skipn_app, skipn_all, Nat.sub_diag.
    reflexivity.
Qed.

Lemma restArgs_after_first_separator_witness :
  restArgs ["node"; "eslint"; "-f"; "friendly"; "src"] 
  = ["node"; "eslint"; "-f"; "friendly"; "src"]
  /\ restArgs (["node"; "eslint"; "src"]
               ++ "--" :: ["--eff-filter"; "semi"; "--"; "x"])
     = ["--eff-filter"; "semi"; "--"; "x"].
Proof.
  split.
  - apply (restArgs_after_first_separator
             ["node"; "eslint"; "-f"; "friendly"; "src"] [] []).
    intros H. cbn in H. intuition discriminate.
  - apply (restArgs_after_first_separator []
             ["node"; "eslint"; "src"] ["--eff-filter"; "semi"; "--"; "x"]).
    intros H. cbn in H. intuition discriminate.
Defined.

Lemma append_empty_right (s : string) : s ++ "" = s.
Proof.
  induction s as [| c s IH]; cbn; [reflexivity | rewrite IH; reflexivity].
Qed.

Lemma replace_before_dollar (rep a : string) :
  hasChar "$" a = false ->
  forall b,
    Js.replace_all "$MARKER$" rep (a ++ b)
    = a ++ Js.replace_all "$MARKER$" rep b.
Proof.
  unfold Js.replace_all.
  induction a as [| c a IH]; intros H b.
  - reflexivity.
  - cbn [hasChar] in H. apply orb_false_iff in H. destruct H as [Hc Ha].
    cbn [String.append Js.replace_all_from].
    assert (Hp : String.prefix "$MARKER$" (String c (a ++ b)) = false).
    { cbn [String.prefix].
      destruct (ascii_dec "$" c) as [E | E]; [| reflexivity].
      subst c. discriminate Hc. }
    rewrite Hp, (IH Ha). reflexivity.
Qed.

Lemma replace_marker_first (rep b : string) :
  Js.replace_all "$MARKER$" rep ("$MARKER$" ++ b)
  = rep ++ Js.replace_all "$MARKER$" rep b.
Proof.
  unfold Js.replace_all.
  cbn [String.append Js.replace_all_from].
  assert (Hp : String.prefix "$MARKER$" (String "$" ("MARKER$" ++ b)) = true).
  { cbn. destruct b; reflexivity. }
  cbn [String.append] in Hp. rewrite Hp. reflexivity.
Qed.

(** X14. Turning the markers of the rendered table into line breaks
    leaves text without a dollar sign as it is, and replaces a marker that
    follows such text by the line break, going on after the marker. *)
Theorem markers_become_line_breaks :
  forall (rep a b : string),
    hasChar "$" a = false ->
    Js.replace_all "$MARKER$" rep a = a
    /\ Js.replace_all "$MARKER$" rep (a ++ "$MARKER$" ++ b)
       = a ++ rep ++ Js.replace_all "$MARKER$" rep b.
Proof.
  intros rep a b H. split.
  - rewrite <- (append_empty_right a) at 1.
    rewrite (replace_before_dollar rep a H ""). cbn.
    apply append_empty_right.
  - rewrite (replace_before_dollar rep a H), replace_marker_first.
    reflexivity.
Qed.

Lemma markers_become_line_breaks_witness :
  Js.replace_all "$MARKER$" Js.LF ("  a.js : 3:8" ++ "$MARKER$" ++ "  x")
  = "  a.js : 3:8" ++ Js.LF ++ Js.replace_all "$MARKER$" Js.LF "  x".
Proof.
  apply (markers_become_line_breaks Js.LF "  a.js : 3:8" "  x").
  reflexivity.
Defined.


(* ------------------------------------------------------------------ *)
(** * Further properties: flattening on any store *)
(* ------------------------------------------------------------------ *)

Section AnyStore.

Import Heap.
Local Open Scope list_scope.

Variable resolve : string -> string.
Variable absolutePaths : bool.

Lemma mapMessages_locations (result : object) (ms : list loc) :
  forall h es h',
    mapMessages resolve absolutePaths h result ms = Some (es, h') ->
    exists news,
      h' = h ++ news
      /\ es = List.seq (List.length h) (List.length news)
      /\ List.length news = List.length ms.
Proof.
  induction ms as [| m ms IH]; intros h es h'; cbn.
  - intros [= <- <-]. exists []. rewrite app_nil_r. repeat split.
  - destruct (flattenMessage resolve absolutePaths h result m)
      as [[t h1] |] eqn:E1; [| discriminate].
    cbn [fst snd].
    destruct (mapMessages resolve absolutePaths h1 result ms)
      as [[es2 h2] |] eqn:E2; [| discriminate].
    cbn [fst snd]. intros [= <- <-].
    destruct (HeapFacts.flattenMessage_appends _ _ _ _ _ _ _ E1)
      as (o & -> & ->).
    destruct (IH _ _ _ E2) as (news & -> & -> & Hlen).
    exists (o :: news). rewrite <- app_assoc.
    split; [reflexivity |]. split; [| cbn; rewrite Hlen; reflexivity].
    rewrite length_app. cbn [List.length List.seq].
    rewrite Nat.add_1_r. reflexivity.
Qed.

Lemma flattenHeap_locations (results : list loc) :
  forall entries h es h',
    flattenHeap resolve absolutePaths entries h results = Some (es, h') ->
    exists news,
      h' = h ++ news
      /\ es = entries ++ List.seq (List.length h) (List.length news).
Proof.
  induction results as [| r rs IH]; intros entries h es h'; cbn.
  - intros [= <- <-]. exists []. rewrite !app_nil_r. split; reflexivity.
  - unfold flattenResult.
    destruct (read h r) as [result |]; [| discriminate].
    destruct (messagesOf result) as [ms |]; [| discriminate].
    destruct (mapMessages resolve absolutePaths h result ms)
      as [[es1 h1] |] eqn:E1; [| discriminate].
    cbn [fst snd]. intros E2.
    destruct (mapMessages_locations _ _ _ _ _ E1) as (news1 & -> & -> & _).
    destruct (IH _ _ _ _ E2) as (news2 & -> & ->).
    exists (news1 ++ news2). rewrite <- !app_assoc.
    split; [reflexivity |]. f_equal.
    rewrite !length_app, seq_app. reflexivity.
Qed.

End AnyStore.

(** X15. On any store, also one whose objects are not well shaped: if
    flattening returns, it has only added objects.  Every object that was
    in the store is still there unchanged, and the entries are distinct
    new locations, one for each object added. *)
Theorem flattening_only_adds_objects :
  forall resolve absolutePaths (h : Heap.heap) (results es : list Heap.loc)
         (h' : Heap.heap),
    Heap.flattenHeap resolve absolutePaths [] h results = Some (es, h') ->
    (forall l o, Heap.read h l = Some o -> Heap.read h' l = Some o)
    /\ List.length h' = (List.length h + List.length es)%nat
    /\ NoDup es
    /\ Forall (fun e => (List.length h <= e < List.length h')%nat) es.
Proof.
  intros resolve absolutePaths h results es h' H.
  destruct (flattenHeap_locations resolve absolutePaths results [] h es h' H)
    as (news & -> & ->).
  cbn [app]. rewrite length_app, length_seq.
  split; [intros l o Hl; apply HeapFacts.read_old; exact Hl |].
  split; [reflexivity |].
  split; [apply seq_NoDup |].
  apply Forall_forall. intros e He. apply in_seq in He. lia.
Qed.

Lemma flattening_only_adds_objects_witness :
  match Heap.flattenHeap resolveInWork false [] Heap.exampleHeap [2%nat] with
  | Some (es, h') =>
      Heap.read h' 1%nat = Some Heap.fatalObject
      /\ List.length h' = (3 + List.length es)%nat
  | None => False
  end.
Proof.
  destruct (Heap.flattenHeap resolveInWork false [] Heap.exampleHeap [2%nat])
    as [[es h'] |] eqn:E.
  - destruct (flattening_only_adds_objects resolveInWork false
                Heap.exampleHeap [2%nat] es h' E) as (Hold & Hlen & _).
    split; [apply Hold; reflexivity | exact Hlen].
  - vm_compute in E. discriminate E.
Defined.
